(** * LinkedList: a doubly-linked list over an explicit node store

    Shallow embedding of [Cpp/Containers/LinkedList.h].  Nodes live in a
    store addressed by [addr]; a [Node*] is an [option addr] with [None] for
    [nullptr].  Member functions are computations in a small state-and-error
    monad whose outcomes are: normal return, a thrown exception (with the
    state the exception leaves behind), undefined behaviour, and exhaustion
    of the recursion/iteration budget. *)

From stdpp Require Import gmap strings list.
From Stdlib Require Import ZArith Ascii.

Local Open Scope Z_scope.

#[local] Set Warnings "-clear-no-such-hyp".

Module Containers.

(** Addresses of heap-allocated nodes; [ptr] is [Node*]. *)
Definition addr := positive.
Abbreviation ptr := (option addr).

(** [std::runtime_error(what)] is the only exception the header throws. *)
Inductive exn : Type :=
| runtime_error (what : string).

(** Range of the C++ [int] that holds [count], and width of [std::size_t]. *)
Definition INT_MAX : Z := 2147483647.
Definition INT_MIN : Z := -2147483648.
Definition SIZE_WIDTH : Z := 64.

Section WithValue.

Context {TValue : Type}.

(** [struct Node { TValue data; Node* next; Node* prev; }] *)
Record Node : Type := mkNode {
  data : TValue;
  next : ptr;
  prev : ptr
}.

(** The private members of [class LinkedList]. *)
Record LinkedList : Type := mkList {
  head : ptr;
  tail : ptr;
  count : Z
}.

(** Program state: the node store together with the list object. *)
Record state : Type := mkState {
  heap : gmap addr Node;
  this : LinkedList
}.

Inductive outcome (A : Type) : Type :=
| Ret (a : A) (s : state)
| Throw (e : exn) (s : state)
| Undef
| OutOfFuel.

Arguments Ret {A} a s.
Arguments Throw {A} e s.
Arguments Undef {A}.
Arguments OutOfFuel {A}.

Definition M (A : Type) : Type := state → outcome A.

Definition ret {A} (a : A) : M A := λ s, Ret a s.

Definition bind {A B} (m : M A) (k : A → M B) : M B :=
  λ s, match m s with
       | Ret a s' => k a s'
       | Throw e s' => Throw e s'
       | Undef => Undef
       | OutOfFuel => OutOfFuel
       end.

Definition throw {A} (e : exn) : M A := λ s, Throw e s.
Definition undef {A} : M A := λ _, Undef.
Definition out_of_fuel {A} : M A := λ _, OutOfFuel.

Notation "x <- m ;; k" := (bind m (λ x, k))
  (at level 100, m at next level, right associativity).
Notation "m ;; k" := (bind m (λ _, k))
  (at level 100, right associativity).

(** ** Access to the list object's members *)

Definition get_head : M ptr := λ s, Ret (head (this s)) s.
Definition get_tail : M ptr := λ s, Ret (tail (this s)) s.

Definition set_head (p : ptr) : M unit := λ s,
  Ret tt (mkState (heap s) (mkList p (tail (this s)) (count (this s)))).

Definition set_tail (p : ptr) : M unit := λ s,
  Ret tt (mkState (heap s) (mkList (head (this s)) p (count (this s)))).

Definition set_count (c : Z) : M unit := λ s,
  Ret tt (mkState (heap s) (mkList (head (this s)) (tail (this s)) c)).

(** [count++] and [count--] on a signed [int]: leaving the range of [int]
    is undefined behaviour. *)
Definition incr_count : M unit := λ s,
  if decide (count (this s) < INT_MAX)
  then set_count (count (this s) + 1) s
  else Undef.

Definition decr_count : M unit := λ s,
  if decide (INT_MIN < count (this s))
  then set_count (count (this s) - 1) s
  else Undef.

(** ** Access to nodes through pointers

    Reading or writing through [nullptr] or through a pointer to a released
    node is undefined behaviour. *)

Definition deref (p : ptr) : M Node := λ s,
  match p with
  | Some a =>
      match heap s !! a with
      | Some n => Ret n s
      | None => Undef
      end
  | None => Undef
  end.

Definition assign (p : ptr) (f : Node → Node) : M unit := λ s,
  match p with
  | Some a =>
      match heap s !! a with
      | Some n => Ret tt (mkState (<[a := f n]> (heap s)) (this s))
      | None => Undef
      end
  | None => Undef
  end.

Definition get_data (p : ptr) : M TValue := n <- deref p ;; ret (data n).
Definition get_next (p : ptr) : M ptr := n <- deref p ;; ret (next n).
Definition get_prev (p : ptr) : M ptr := n <- deref p ;; ret (prev n).

Definition set_next (p q : ptr) : M unit :=
  assign p (λ n, mkNode (data n) q (prev n)).
Definition set_prev (p q : ptr) : M unit :=
  assign p (λ n, mkNode (data n) (next n) q).

(** [new Node(val)]: storage not in use so far, initialised by the
    constructor [Node(val) : next(nullptr), prev(nullptr), data(val)].  The
    store is unbounded: allocation does not fail. *)
Definition new_Node (val : TValue) : M ptr := λ s,
  let a := fresh (dom (heap s)) in
  Ret (Some a) (mkState (<[a := mkNode val None None]> (heap s)) (this s)).

(** Release of a node's storage at the end of [delete]. *)
Definition deallocate (a : addr) : M unit := λ s,
  match heap s !! a with
  | Some _ => Ret tt (mkState (delete a (heap s)) (this s))
  | None => Undef
  end.

(** [delete p] for a [Node* p].  Deleting [nullptr] does nothing.  Otherwise
    the destructor [~Node() { delete next; next = nullptr; }] runs and then
    the storage is released.  The destructor deletes the successor, so the
    activations nest once per node of the [next] chain; [depth] is the number
    of nested [~Node] activations the call stack has room for. *)
Fixpoint delete_Node (depth : nat) (p : ptr) : M unit :=
  match p with
  | None => ret tt
  | Some a =>
      match depth with
      | O => out_of_fuel
      | S depth' =>
          nxt <- get_next p ;;
          delete_Node depth' nxt ;;
          set_next p None ;;
          deallocate a
      end
  end.

(** ** The member functions *)

(** [LinkedList() : head(nullptr), tail(nullptr), count(0)] on an empty
    node store. *)
Definition LinkedList_new : state := mkState ∅ (mkList None None 0).

(** [size()]: [return count;], an [int] converted to [std::size_t]. *)
Definition size (s : state) : Z := count (this s) `mod` 2 ^ SIZE_WIDTH.

(** [empty()]: [return head == nullptr;] *)
Definition empty (s : state) : bool := bool_decide (head (this s) = None).

Definition addAfter (node : ptr) (val : TValue) : M unit :=
  newNode <- new_Node val ;;
  match node with
  | Some _ =>
      set_prev newNode node ;;
      nn <- get_next node ;;
      set_next newNode nn ;;
      set_next node newNode ;;
      nn' <- get_next newNode ;;
      match nn' with
      | Some _ => set_prev nn' newNode
      | None => set_tail newNode
      end
  | None =>
      set_head newNode ;;
      set_tail newNode
  end ;;
  incr_count.

Definition addBefore (node : ptr) (val : TValue) : M unit :=
  newNode <- new_Node val ;;
  match node with
  | Some _ =>
      set_next newNode node ;;
      np <- get_prev node ;;
      set_prev newNode np ;;
      set_prev node newNode ;;
      np' <- get_prev newNode ;;
      match np' with
      | Some _ => set_next np' newNode
      | None => set_head newNode
      end
  | None =>
      set_head newNode ;;
      set_tail newNode
  end ;;
  incr_count.

(** [removeNode] resets [node->next] before [delete node], so the
    destructor of the removed node finds no successor to delete and a single
    [~Node] activation suffices. *)
Definition removeNode (node : ptr) : M TValue :=
  h <- get_head ;;
  match h with
  | None => throw (runtime_error "cannot remove from empty list")
  | Some _ =>
      val <- get_data node ;;
      nn <- get_next node ;;
      match nn with
      | Some _ => np <- get_prev node ;; set_prev nn np
      | None => np <- get_prev node ;; set_tail np
      end ;;
      np <- get_prev node ;;
      match np with
      | Some _ => nn' <- get_next node ;; set_next np nn'
      | None => nn' <- get_next node ;; set_head nn'
      end ;;
      set_next node None ;;
      set_prev node None ;;
      delete_Node 1 node ;;
      decr_count ;;
      ret val
  end.

(** The [const TValue&] and [TValue&&] overloads of [push_front] and of
    [push_back] have the same body, up to a [std::move] that binds to the
    [const TValue&] parameter of the helper. *)
Definition push_front (val : TValue) : M unit :=
  h <- get_head ;; addBefore h val.

Definition push_back (val : TValue) : M unit :=
  t <- get_tail ;; addAfter t val.

Definition pop_front : M TValue :=
  h <- get_head ;; removeNode h.

Definition pop_back : M TValue :=
  t <- get_tail ;; removeNode t.

Definition front : M TValue :=
  h <- get_head ;;
  match h with
  | None => throw (runtime_error "list is empty")
  | Some _ => get_data h
  end.

Definition back : M TValue :=
  t <- get_tail ;;
  match t with
  | None => throw (runtime_error "list is empty")
  | Some _ => get_data t
  end.

(** [clear()]: [delete head; head = nullptr; tail = nullptr; count = 0;] *)
Definition clear (depth : nat) : M unit :=
  h <- get_head ;;
  delete_Node depth h ;;
  set_head None ;;
  set_tail None ;;
  set_count 0.

(** ** Iterators *)

(** Modelled from the spec: [LinkedListIterator.h], which declares
    [LinkedListIterator] with its dereference, increment, decrement and
    equality operators, is not among the sources.  Following the spec, an
    iterator holds the node it addresses or the null sentinel; two iterators
    are equal iff they hold the same node or are both the sentinel;
    increment moves to the node's [next] and decrement to its [prev];
    dereferencing or stepping the sentinel is undefined. *)
Record iterator : Type := mkIterator {
  it_node : ptr
}.

Definition it_eq (i j : iterator) : bool :=
  bool_decide (it_node i = it_node j).

Definition it_deref (i : iterator) : M TValue := get_data (it_node i).

Definition it_incr (i : iterator) : M iterator :=
  nxt <- get_next (it_node i) ;; ret (mkIterator nxt).

Definition it_decr (i : iterator) : M iterator :=
  prv <- get_prev (it_node i) ;; ret (mkIterator prv).

(** [begin()], [end()], [rbegin()], [rend()] as the header defines them. *)
Definition begin (s : state) : iterator := mkIterator (head (this s)).
Definition end_ (s : state) : iterator := mkIterator None.
Definition rbegin (s : state) : iterator := mkIterator (tail (this s)).
Definition rend (s : state) : iterator := mkIterator None.

(** The loop [for (it = first; it != last; advance it) visit the value at it],
    collecting the visited values; [fuel] bounds the number of iterations. *)
Fixpoint traverse (fuel : nat) (advance : iterator → M iterator)
    (it last : iterator) : M (list TValue) :=
  if it_eq it last then ret []
  else
    match fuel with
    | O => out_of_fuel
    | S fuel' =>
        v <- it_deref it ;;
        it' <- advance it ;;
        vs <- traverse fuel' advance it' last ;;
        ret (v :: vs)
    end.

Definition forward_traversal (fuel : nat) : M (list TValue) := λ s,
  traverse fuel it_incr (begin s) (end_ s) s.

Definition backward_traversal (fuel : nat) : M (list TValue) := λ s,
  traverse fuel it_decr (rbegin s) (rend s) s.

(** ** The structural invariants of the data model *)

(** Walking forward from [p] via [next]: the nodes visited, provided the
    walk reaches the null pointer within [fuel] steps. *)
Fixpoint walk (fuel : nat) (h : gmap addr Node) (p : ptr)
    : option (list addr) :=
  match p with
  | None => Some []
  | Some a =>
      match fuel with
      | O => None
      | S fuel' =>
          match h !! a with
          | Some n => cons a <$> walk fuel' h (next n)
          | None => None
          end
      end
  end.

Record Invariant (s : state) : Prop := mkInvariant {
  inv_count_head : count (this s) = 0 ↔ head (this s) = None;
  inv_head_tail : head (this s) = None ↔ tail (this s) = None;
  inv_single : count (this s) = 1 → head (this s) = tail (this s);
  inv_walk :
    ∃ ps,
      walk (Z.to_nat (count (this s))) (heap s) (head (this s)) = Some ps ∧
      Z.of_nat (length ps) = count (this s) ∧
      last ps = tail (this s) ∧
      (∀ t, tail (this s) = Some t → next <$> heap s !! t = Some None);
  inv_next_prev :
    ∀ a n b, heap s !! a = Some n → next n = Some b →
             prev <$> heap s !! b = Some (Some a);
  inv_prev_next :
    ∀ a n b, heap s !! a = Some n → prev n = Some b →
             next <$> heap s !! b = Some (Some a)
}.

(** A call raises when it ends in an exception. *)
Definition raises {A} (m : M A) (s : state) : Prop :=
  ∃ e s', m s = Throw e s'.

(** ** Client programs: sequences of calls *)

Inductive op : Type :=
| PushFront (val : TValue)
| PushBack (val : TValue)
| PopFront
| PopBack
| Clear.

Definition call (depth : nat) (o : op) : M unit :=
  match o with
  | PushFront v => push_front v
  | PushBack v => push_back v
  | PopFront => pop_front ;; ret tt
  | PopBack => pop_back ;; ret tt
  | Clear => clear depth
  end.

(** [try { m } catch (...) {}]: the caller recovers from an exception and
    goes on with the state the failed call left behind. *)
Definition try_catch (m : M unit) : M unit := λ s,
  match m s with
  | Throw _ s' => Ret tt s'
  | r => r
  end.

(** Calls in sequence; an exception ends the sequence. *)
Fixpoint exec (depth : nat) (ops : list op) : M unit :=
  match ops with
  | [] => ret tt
  | o :: ops' => call depth o ;; exec depth ops'
  end.

(** Calls in sequence, each one guarded by a handler. *)
Fixpoint exec_catching (depth : nat) (ops : list op) : M unit :=
  match ops with
  | [] => ret tt
  | o :: ops' => try_catch (call depth o) ;; exec_catching depth ops'
  end.

(** A list state is reachable when some finite sequence of calls produces
    it from a newly constructed list. *)
Definition reachable (s : state) : Prop :=
  ∃ depth ops, exec_catching depth ops LinkedList_new = Ret tt s.

Definition is_push (o : op) : bool :=
  match o with
  | PushFront _ | PushBack _ => true
  | _ => false
  end.

Definition is_pop (o : op) : bool :=
  match o with
  | PopFront | PopBack => true
  | _ => false
  end.

(** Number of calls in [ops] that satisfy [f]. *)
Fixpoint count_ops (f : op → bool) (ops : list op) : Z :=
  match ops with
  | [] => 0
  | o :: ops' => (if f o then 1 else 0) + count_ops f ops'
  end.

(** The sequence of values a sequence of pushes builds: [push_back] appends
    at the end and [push_front] prepends at the front. *)
Fixpoint push_order (ops : list op) (acc : list TValue) : list TValue :=
  match ops with
  | [] => acc
  | PushFront v :: ops' => push_order ops' (v :: acc)
  | PushBack v :: ops' => push_order ops' (acc ++ [v])
  | _ :: ops' => push_order ops' acc
  end.

(** The state a sequence of guarded calls leaves behind. *)
Definition state_after (depth : nat) (ops : list op) : state :=
  match exec_catching depth ops LinkedList_new with
  | Ret _ s => s
  | _ => LinkedList_new
  end.

(** [~LinkedList() { clear(); }] *)
Definition LinkedList_dtor (depth : nat) : M unit := clear depth.

End WithValue.

Arguments Node : clear implicits.
Arguments state : clear implicits.
Arguments outcome : clear implicits.
Arguments M : clear implicits.
Arguments LinkedList : clear implicits.
Arguments op : clear implicits.
Arguments Ret {TValue A} a s.
Arguments Throw {TValue A} e s.
Arguments Undef {TValue A}.
Arguments OutOfFuel {TValue A}.

Notation "x <- m ;; k" := (bind m (λ x, k))
  (at level 100, m at next level, right associativity).
Notation "m ;; k" := (bind m (λ _, k))
  (at level 100, right associativity).

(** ** The representation of a sequence of cells in the node store *)

Section RepresentationDefinitions.

Context {TValue : Type}.

Implicit Types (h : gmap addr (Node TValue)) (s : state TValue).
Implicit Types (cs xs ys : list (addr * TValue)) (p q : ptr) (a : addr).
Implicit Types (o : op TValue).

(** Pointer to the first cell of [cs], or [q] when there is none; pointer
    to the last cell of [cs], or [p] when there is none. *)
Definition first_ptr cs q : ptr :=
  match cs with
  | [] => q
  | c :: _ => Some c.1
  end.

Fixpoint last_ptr cs p : ptr :=
  match cs with
  | [] => p
  | c :: cs' => last_ptr cs' (Some c.1)
  end.

(** [dllseg h p cs q]: the cells [cs] are linked in this order in [h], the
    first one having [p] as predecessor and the last one [q] as successor. *)
Fixpoint dllseg h p cs q : Prop :=
  match cs with
  | [] => True
  | c :: cs' =>
      h !! c.1 = Some (mkNode c.2 (first_ptr cs' q) p) ∧
      dllseg h (Some c.1) cs' q
  end.

(** [Rep s cs]: the list object of [s] owns exactly the cells [cs], from
    head to tail. *)
Record Rep s cs : Prop := mkRep {
  rep_seg : dllseg (heap s) None cs None;
  rep_nodup : NoDup cs.*1;
  rep_dom : dom (heap s) = list_to_set cs.*1;
  rep_head : head (this s) = first_ptr cs None;
  rep_tail : tail (this s) = last_ptr cs None;
  rep_count : count (this s) = Z.of_nat (length cs);
  rep_range : Z.of_nat (length cs) ≤ INT_MAX
}.

(** What a call that returns does to the represented cells. *)
Definition effect o cs cs' : Prop :=
  match o with
  | PushFront v => ∃ a, cs' = (a, v) :: cs
  | PushBack v => ∃ a, cs' = cs ++ [(a, v)]
  | PopFront => ∃ c, cs = c :: cs'
  | PopBack => ∃ c, cs = cs' ++ [c]
  | Clear => cs' = []
  end.

End RepresentationDefinitions.

(** ** Sample client programs over integer values *)

Definition one_push : list (op Z) := [PushBack 1].

Definition three_pushes : list (op Z) := [PushBack 1; PushBack 2; PushBack 3].

Definition mixed_calls : list (op Z) :=
  [PopFront; PushBack 1; PushFront 2; PushBack 3; PopBack; Clear; PopBack;
   PushFront 4; PushBack 5; PopFront; PushFront 6].

Definition pushes_and_pops : list (op Z) :=
  [PushBack 1; PushFront 2; PopBack; PushBack 3; PushFront 4; PopFront].

Definition front_and_back_pushes : list (op Z) :=
  [PushBack 1; PushFront 2; PushBack 3; PushFront 4].

(** ** Rendering: [toString] *)

(** [std::endl] appends a newline; [std::string(n, ' ')] is [n] spaces. *)
Definition endl : string := String "010"%char "".

Fixpoint spaces (n : nat) : string :=
  match n with
  | O => ""
  | S n' => String " "%char (spaces n')
  end.

Section Rendering.

Context {TValue : Type}.

(** [ss << data] for a [TValue]: the text the stream insertion operator of
    the element type produces. *)
Context (show : TValue → string).

(** The result of an [int] operation: outside the range of [int] the
    operation is undefined. *)
Definition int_result (z : Z) : M TValue Z := λ s,
  if decide (INT_MIN ≤ z ≤ INT_MAX) then Ret z s else Undef.

(** [std::string(n, ' ')] for an [int n]: the count is converted to
    [std::size_t]. *)
Definition fill (n : Z) : string := spaces (Z.to_nat (n `mod` 2 ^ SIZE_WIDTH)).

(** [Node::toString()]: [ss << '[' << data << ']'] *)
Definition Node_toString (n : Node TValue) : string :=
  "[" +:+ show (data n) +:+ "]".

(** The first loop of [LinkedList::toString()], from node [n] on, with the
    text produced so far in [ss]:
    [while (n != nullptr) { ss << n->toString();
       if (n->next != nullptr) ss << "<->"; n = n->next; }] *)
Fixpoint toString_nodes (fuel : nat) (n : ptr) (ss : string)
    : M TValue string :=
  match n with
  | None => ret ss
  | Some _ =>
      match fuel with
      | O => out_of_fuel
      | S fuel' =>
          nd <- deref n ;;
          nxt <- get_next n ;;
          nxt' <- get_next n ;;
          toString_nodes fuel' nxt'
            (match nxt with
             | Some _ => ss +:+ Node_toString nd +:+ "<->"
             | None => ss +:+ Node_toString nd
             end)
      end
  end.

(** The second and the third loop of [LinkedList::toString()], which count
    the nodes before [target] ([head], then [tail]), from node [hn] on with
    [k] nodes counted so far:
    [while (hn != nullptr) { if (hn == target) break; k++; hn = hn->next; }] *)
Fixpoint toString_index (fuel : nat) (target hn : ptr) (k : Z)
    : M TValue Z :=
  match hn with
  | None => ret k
  | Some _ =>
      if decide (hn = target) then ret k
      else
        match fuel with
        | O => out_of_fuel
        | S fuel' =>
            k' <- int_result (k + 1) ;;
            nxt <- get_next hn ;;
            toString_index fuel' target nxt k'
        end
  end.

(** [LinkedList::toString()]; [fuel] bounds the iterations of each loop. *)
Definition toString (fuel : nat) : M TValue string :=
  hd <- get_head ;;
  ss <- toString_nodes fuel hd "" ;;
  ss0 <- ret (ss +:+ endl) ;;
  hd' <- get_head ;;
  headthNode <- toString_index fuel hd' hd' 0 ;;
  hd'' <- get_head ;;
  tl <- get_tail ;;
  tailthNode <- toString_index fuel tl hd'' 0 ;;
  ss1 <- (if decide (headthNode > 0)
          then w <- int_result (headthNode * 6) ;;
               ret (ss0 +:+ fill w)
          else ret ss0) ;;
  ss2 <- (if decide (tailthNode > 0)
          then d <- int_result (tailthNode - headthNode) ;;
               w <- int_result (d * 6) ;;
               ret (ss1 +:+ " h" +:+ fill w)
          else ret (ss1 +:+ " h")) ;;
  ret (ss2 +:+ "t").

(** The rendering of a sequence of values: the nodes joined by the link
    marker, a newline, then the head marker and, six columns further for
    every node after the first, the tail marker. *)
Fixpoint joined (vs : list TValue) : string :=
  match vs with
  | [] => ""
  | v :: vs' =>
      match vs' with
      | [] => "[" +:+ show v +:+ "]"
      | _ :: _ => "[" +:+ show v +:+ "]" +:+ "<->" +:+ joined vs'
      end
  end.

Definition rendering (vs : list TValue) : string :=
  joined vs +:+ endl +:+ " h" +:+ spaces (6 * (length vs - 1)) +:+ "t".

End Rendering.

(** ** Observations and client loops *)

Section Observations.

Context {TValue : Type}.

(** The cells (address and value) met on the way from [p] along [next]. *)
Fixpoint chain (fuel : nat) (h : gmap addr (Node TValue)) (p : ptr)
    : option (list (addr * TValue)) :=
  match p with
  | None => Some []
  | Some a =>
      match fuel with
      | O => None
      | S fuel' =>
          match h !! a with
          | Some n => cons (a, data n) <$> chain fuel' h (next n)
          | None => None
          end
      end
  end.

Definition to_cells (s : state TValue) : option (list (addr * TValue)) :=
  chain (Z.to_nat (count (this s))) (heap s) (head (this s)).

(** The values of the list, from head to tail. *)
Definition to_list (s : state TValue) : option (list TValue) :=
  (λ cs : list (addr * TValue), cs.*2) <$> to_cells s.

(** Walking backward from [p] via [prev]. *)
Fixpoint walk_back (fuel : nat) (h : gmap addr (Node TValue)) (p : ptr)
    : option (list addr) :=
  match p with
  | None => Some []
  | Some a =>
      match fuel with
      | O => None
      | S fuel' =>
          match h !! a with
          | Some n => cons a <$> walk_back fuel' h (prev n)
          | None => None
          end
      end
  end.

(** The sequence a call makes of a sequence of values; a pop of the empty
    sequence leaves it empty. *)
Definition apply_op (vs : list TValue) (o : op TValue) : list TValue :=
  match o with
  | PushFront v => v :: vs
  | PushBack v => vs ++ [v]
  | PopFront => drop 1 vs
  | PopBack => take (length vs - 1) vs
  | Clear => []
  end.

(** [n] calls of [pop_front], resp. [pop_back], collecting the values. *)
Fixpoint pop_front_n (n : nat) : M TValue (list TValue) :=
  match n with
  | O => ret []
  | S n' => v <- pop_front ;; vs <- pop_front_n n' ;; ret (v :: vs)
  end.

Fixpoint pop_back_n (n : nat) : M TValue (list TValue) :=
  match n with
  | O => ret []
  | S n' => v <- pop_back ;; vs <- pop_back_n n' ;; ret (v :: vs)
  end.

(** An outcome that is neither undefined behaviour nor exhaustion. *)
Definition well_defined {A} (r : outcome TValue A) : Prop :=
  match r with
  | Ret _ _ | Throw _ _ => True
  | Undef | OutOfFuel => False
  end.

End Observations.

(** A sample [show]: the decimal digit of a value between 0 and 9. *)
Definition show_digit (z : Z) : string :=
  String (ascii_of_nat (48 + Z.to_nat z)) "".

(** ** Lists of addresses *)

Section Addresses.
Implicit Types (xs ys : list addr) (a b f : addr).

Lemma NoDup_mid xs a ys :
  NoDup (xs ++ a :: ys) →
  (a ∉ xs) ∧ (a ∉ ys) ∧ NoDup (xs ++ ys) ∧ (∀ b, b ∈ xs → b ∉ ys).
Proof.
  intros H. apply NoDup_app in H as (Hx & Hxy & Hy).
  apply NoDup_cons in Hy as [Hay Hy].
  split_and!; [|done| |].
  - intros Ha. apply (Hxy _ Ha). left.
  - apply NoDup_app. split_and!; [done| |done].
    intros b Hb Hb'. apply (Hxy _ Hb). by right.
  - intros b Hb Hb'. apply (Hxy _ Hb). by right.
Qed.

Lemma NoDup_mid_insert xs a ys :
  NoDup (xs ++ ys) → a ∉ xs ++ ys → NoDup (xs ++ a :: ys).
Proof.
  intros H Ha. apply NoDup_app in H as (Hx & Hxy & Hy).
  apply not_elem_of_app in Ha as [Hax Hay].
  apply NoDup_app. split_and!; [done| |by apply NoDup_cons].
  intros b Hb Hb'. apply elem_of_cons in Hb' as [->|Hb']; [done|].
  by apply (Hxy _ Hb).
Qed.

Lemma list_to_set_mid xs a ys :
  list_to_set (xs ++ a :: ys) =@{gset addr} {[a]} ∪ list_to_set (xs ++ ys).
Proof. rewrite !list_to_set_app_L, list_to_set_cons. set_solver. Qed.

Lemma list_to_set_mid_delete xs a ys :
  a ∉ xs ++ ys →
  list_to_set (xs ++ ys) =@{gset addr} list_to_set (xs ++ a :: ys) ∖ {[a]}.
Proof.
  intros Ha. rewrite list_to_set_mid.
  assert (a ∉ (list_to_set (xs ++ ys) : gset addr)) by by rewrite elem_of_list_to_set.
  set_solver.
Qed.

Lemma NoDup_insert_after xs a f ys :
  NoDup (xs ++ a :: ys) → f ∉ xs ++ a :: ys → NoDup (xs ++ a :: f :: ys).
Proof.
  intros H Hf. rewrite (cons_middle a xs), (assoc_L (++)).
  apply NoDup_mid_insert; by rewrite <-(assoc_L (++)).
Qed.

Lemma list_to_set_insert_after xs a f ys :
  list_to_set (xs ++ a :: f :: ys) =@{gset addr}
  {[f]} ∪ list_to_set (xs ++ a :: ys).
Proof.
  rewrite (cons_middle a xs), (assoc_L (++)), list_to_set_mid.
  by rewrite <-(assoc_L (++)).
Qed.

End Addresses.

(** ** Tactics for running the code on a represented state *)

Ltac run_code :=
  unfold addAfter, addBefore, removeNode, push_front, push_back, pop_front,
    pop_back, front, back, clear, new_Node, set_prev, set_next, get_next,
    get_prev, get_data, assign, deref, deallocate, incr_count, decr_count,
    set_count, set_head, set_tail, get_head, get_tail, throw, bind, ret;
  simpl.

Ltac frame_tac :=
  let b := fresh "b" in
  let Hb := fresh "Hb" in
  intros b Hb;
  repeat first [rewrite lookup_insert_ne | rewrite lookup_delete_ne];
  first [done | by intros <- | by intros ->].

Ltac exec_tac := repeat (progress (run_code; simplify_map_eq)).

Ltac dom_tac :=
  rewrite ?dom_delete_L;
  rewrite ?dom_insert_lookup_L by (by simplify_map_eq).

(** ** Properties of the representation *)

Section Representation.

Context {TValue : Type}.

Implicit Types (h : gmap addr (Node TValue)) (s : state TValue).
Implicit Types (cs xs ys : list (addr * TValue)) (p q : ptr) (a : addr).
Implicit Types (o : op TValue) (ops : list (op TValue)).

(** *** Segments *)

Lemma first_ptr_app xs ys q :
  first_ptr (xs ++ ys) q = first_ptr xs (first_ptr ys q).
Proof. by destruct xs. Qed.

Lemma last_ptr_app xs ys p :
  last_ptr (xs ++ ys) p = last_ptr ys (last_ptr xs p).
Proof. revert p. induction xs as [|c xs IH]; intros p; simpl; auto. Qed.

Lemma last_ptr_snoc xs a v p : last_ptr (xs ++ [(a, v)]) p = Some a.
Proof. by rewrite last_ptr_app. Qed.

Lemma dllseg_app h p xs ys q :
  dllseg h p (xs ++ ys) q ↔
  dllseg h p xs (first_ptr ys q) ∧ dllseg h (last_ptr xs p) ys q.
Proof.
  revert p. induction xs as [|c xs IH]; intros p; simpl.
  - tauto.
  - rewrite IH, first_ptr_app. tauto.
Qed.

(** A segment only depends on the nodes at its own addresses. *)
Lemma dllseg_frame h h' p cs q :
  (∀ a, a ∈ cs.*1 → h' !! a = h !! a) →
  dllseg h p cs q → dllseg h' p cs q.
Proof.
  revert p. induction cs as [|c cs IH]; intros p Hagree; simpl; [done|].
  intros [Hc Hcs]. split.
  - rewrite Hagree; [done|]. simpl. left.
  - apply IH; [|done]. intros a Ha. apply Hagree. simpl. by right.
Qed.

Lemma dllseg_lookup h p cs q a :
  dllseg h p cs q → a ∈ cs.*1 → is_Some (h !! a).
Proof.
  revert p. induction cs as [|c cs IH]; intros p; simpl.
  - intros _ Ha. by apply elem_of_nil in Ha.
  - intros [Hc Hcs] Ha. apply elem_of_cons in Ha as [->|Ha]; eauto.
Qed.

Lemma dllseg_agree h h' p cs q a :
  dllseg h p cs q → dllseg h' p cs q → a ∈ cs.*1 → h !! a = h' !! a.
Proof.
  revert p. induction cs as [|c cs IH]; intros p; simpl.
  - intros _ _ Ha. by apply elem_of_nil in Ha.
  - intros [Hc Hcs] [Hc' Hcs'] Ha.
    apply elem_of_cons in Ha as [->|Ha]; [congruence|eauto].
Qed.

(** Two states that represent the same cells are the same state. *)
Lemma Rep_inj s s' cs : Rep s cs → Rep s' cs → s = s'.
Proof.
  intros [Hseg _ Hdom Hh Ht Hc _] [Hseg' _ Hdom' Hh' Ht' Hc' _].
  destruct s as [h [hd tl n]], s' as [h' [hd' tl' n']]; simpl in *.
  f_equal; [|congruence].
  apply map_eq. intros a.
  destruct (decide (a ∈ cs.*1)) as [Ha|Ha].
  - eapply dllseg_agree; eauto.
  - assert (a ∉ dom h) as H1 by (rewrite Hdom; set_solver).
    assert (a ∉ dom h') as H2 by (rewrite Hdom'; set_solver).
    apply not_elem_of_dom in H1, H2. congruence.
Qed.

Lemma Rep_new : Rep (@LinkedList_new TValue) [].
Proof. split; simpl; try done. apply NoDup_nil_2. Qed.

Lemma Rep_nil_inv s : Rep s [] → s = LinkedList_new.
Proof. intros H. eapply Rep_inj; [done|apply Rep_new]. Qed.

(** *** The node-level operations *)

Lemma fresh_not_in s cs :
  Rep s cs → fresh (dom (heap s)) ∉ cs.*1.
Proof.
  intros H Hin.
  assert (Hsub : ∀ a, a ∈ cs.*1 → a ∈ dom (heap s)).
  { intros a Ha. rewrite (rep_dom _ _ H). by apply elem_of_list_to_set. }
  exact (is_fresh _ (Hsub _ Hin)).
Qed.

Lemma addAfter_spec s xs a va ys v :
  Rep s (xs ++ (a, va) :: ys) →
  ∃ s',
    addAfter (Some a) v s =
      (if decide (count (this s) < INT_MAX) then Ret tt s' else Undef) ∧
    (count (this s) < INT_MAX →
     Rep s' (xs ++ (a, va) :: (fresh (dom (heap s)), v) :: ys)).
Proof.
  intros HRep. pose proof (fresh_not_in _ _ HRep) as Hfresh.
  destruct HRep as [Hseg Hnd Hdom Hh Ht Hc Hr].
  destruct s as [h [hd tl n]]; simpl in *.
  set (f := fresh (dom h)) in *.
  assert (Hf : h !! f = None) by (apply not_elem_of_dom, is_fresh).
  apply dllseg_app in Hseg as [Hxs [Ha Hys]]. simpl in *.
  rewrite fmap_app, fmap_cons in Hnd, Hfresh, Hdom. simpl in *.
  assert (HRest : NoDup (xs.*1 ++ a :: f :: ys.*1) ∧
    {[f]} ∪ dom h = list_to_set (xs.*1 ++ a :: f :: ys.*1) ∧
    length (xs ++ (a, va) :: (f, v) :: ys) = S (length (xs ++ (a, va) :: ys))).
  { split_and!.
    - by apply NoDup_insert_after.
    - by rewrite Hdom, list_to_set_insert_after.
    - rewrite !length_app. simpl. lia. }
  destruct HRest as (Hnd' & Hdom' & Hlen').
  destruct (NoDup_mid _ _ _ Hnd) as (Hax & Hay & _ & Hxy).
  apply not_elem_of_app in Hfresh as [Hfx Hfy].
  apply not_elem_of_cons in Hfy as [Hfa Hfy].
  subst f.
  destruct ys as [|[b vb] ys]; simpl in *.
  - exec_tac.
    eexists; split; [reflexivity|intros Hlt].
    rewrite !insert_insert_eq.
    split; simpl.
    + apply dllseg_app; simpl. split_and!.
      * eapply dllseg_frame; [|done]. frame_tac.
      * by simplify_map_eq.
      * by simplify_map_eq.
      * done.
    + by rewrite fmap_app.
    + rewrite fmap_app; simpl. rewrite <-Hdom'.
      rewrite !dom_insert_lookup_L by (by simplify_map_eq).
      by rewrite dom_insert_L.
    + by rewrite !first_ptr_app.
    + by rewrite last_ptr_app.
    + lia.
    + lia.
  - destruct Hys as [Hb Hys]. simpl in *.
    assert (Hbx : b ∉ xs.*1) by (intros Hbx; apply (Hxy _ Hbx); left).
    apply NoDup_app in Hnd as (_ & _ & Hnd).
    apply NoDup_cons in Hnd as [_ Hnd]. apply NoDup_cons in Hnd as [Hby _].
    apply not_elem_of_cons in Hay as [Hab Hay].
    apply not_elem_of_cons in Hfy as [Hfb Hfy].
    exec_tac.
    eexists; split; [reflexivity|intros Hlt].
    rewrite !insert_insert_eq.
    split; simpl.
    + apply dllseg_app; simpl. split_and!.
      * eapply dllseg_frame; [|done]. frame_tac.
      * by simplify_map_eq.
      * by simplify_map_eq.
      * by simplify_map_eq.
      * eapply dllseg_frame; [|done]. frame_tac.
    + by rewrite fmap_app.
    + rewrite fmap_app; simpl. rewrite <-Hdom'.
      rewrite !dom_insert_lookup_L by (by simplify_map_eq).
      by rewrite dom_insert_L.
    + by rewrite !first_ptr_app.
    + by rewrite !last_ptr_app.
    + lia.
    + lia.
Qed.

Lemma removeNode_spec s xs a va ys :
  Rep s (xs ++ (a, va) :: ys) →
  ∃ s', removeNode (Some a) s = Ret va s' ∧ Rep s' (xs ++ ys).
Proof.
  intros [Hseg Hnd Hdom Hh Ht Hc Hr].
  destruct s as [h [hd tl n]]; simpl in *.
  apply dllseg_app in Hseg as [Hxs [Ha Hys]]. simpl in *.
  rewrite fmap_app, fmap_cons in Hnd, Hdom. simpl in *.
  destruct (NoDup_mid _ _ _ Hnd) as (Hax & Hay & Hnd' & Hxy).
  assert (Hdom' : dom h ∖ {[a]} = list_to_set (xs.*1 ++ ys.*1)).
  { rewrite Hdom. symmetry. apply list_to_set_mid_delete.
    by apply not_elem_of_app. }
  assert (Hlen : length (xs ++ (a, va) :: ys) = S (length (xs ++ ys))).
  { rewrite !length_app. simpl. lia. }
  destruct hd as [a0|]; [|rewrite first_ptr_app in Hh; by destruct xs].
  assert (Hmin : INT_MIN < n) by (unfold INT_MIN; lia).
  rewrite Hlen in Hc, Hr. clear Hlen Hdom Hnd.
  destruct xs as [|[c vc] xs _] using rev_ind.
  - destruct ys as [|[b vb] ys]; simpl in *.
    + exec_tac. eexists; split; [reflexivity|].
      split; simpl; try done; try lia.
      by dom_tac.
    + destruct Hys as [Hb Hys]. simpl in *.
      apply not_elem_of_cons in Hay as [Hab Hay].
      pose proof Hnd' as Hnd''. apply NoDup_cons in Hnd'' as [Hby _].
      exec_tac. eexists; split; [reflexivity|].
      rewrite !insert_insert_eq, delete_insert_eq.
      split; simpl; try done; try lia.
      * split; [by simplify_map_eq|].
        eapply dllseg_frame; [|done]. frame_tac.
      * by dom_tac.
  - rewrite ?last_ptr_snoc in *. apply dllseg_app in Hxs as [Hxs [Hc' _]].
    rewrite fmap_app in *. rewrite <-(assoc_L (++)) in Hnd', Hdom'. simpl in *.
    apply not_elem_of_app in Hax as [Hax Hac].
    apply not_elem_of_cons in Hac as [Hac _].
    destruct (NoDup_mid _ _ _ Hnd') as (Hcx & Hcy & _ & _).
    destruct ys as [|[b vb] ys]; simpl in *.
    + rewrite app_nil_r in *.
      exec_tac. eexists; split; [reflexivity|].
      rewrite !insert_insert_eq, delete_insert_eq.
      split; simpl; try done; try lia.
      * apply dllseg_app; split; simpl.
        -- eapply dllseg_frame; [|done]. frame_tac.
        -- by simplify_map_eq.
      * by rewrite fmap_app.
      * rewrite fmap_app. by dom_tac.
      * by rewrite Hh, !first_ptr_app.
      * by rewrite last_ptr_snoc.
    + destruct Hys as [Hb Hys]. simpl in *.
      apply not_elem_of_cons in Hay as [Hab Hay].
      apply not_elem_of_cons in Hcy as [Hcb Hcy].
      assert (Hbx : b ∉ xs.*1).
      { intros Hbx. apply (Hxy b); [apply elem_of_app; by left|left]. }
      assert (Hby : b ∉ ys.*1).
      { apply NoDup_app in Hnd' as (_ & _ & Hnd').
        apply NoDup_cons in Hnd' as [_ Hnd'].
        by apply NoDup_cons in Hnd' as [? _]. }
      exec_tac. eexists; split; [reflexivity|].
      rewrite !insert_insert_eq, delete_insert_eq.
      rewrite <-!(assoc_L (++) xs). simpl.
      split; simpl; try done; try lia.
      * apply dllseg_app; split; simpl.
        -- eapply dllseg_frame; [|done]. frame_tac.
        -- split_and!; [by simplify_map_eq..|].
           eapply dllseg_frame; [|done]. frame_tac.
      * by rewrite fmap_app.
      * rewrite fmap_app. by dom_tac.
      * by rewrite Hh, !first_ptr_app.
      * by rewrite !last_ptr_app.
      * rewrite <-(assoc_L (++) xs) in Hr. simpl in Hr. lia.
Qed.

Lemma addBefore_spec s xs a va ys v :
  Rep s (xs ++ (a, va) :: ys) →
  ∃ s',
    addBefore (Some a) v s =
      (if decide (count (this s) < INT_MAX) then Ret tt s' else Undef) ∧
    (count (this s) < INT_MAX →
     Rep s' (xs ++ (fresh (dom (heap s)), v) :: (a, va) :: ys)).
Proof.
  intros HRep. pose proof (fresh_not_in _ _ HRep) as Hfresh.
  destruct HRep as [Hseg Hnd Hdom Hh Ht Hc Hr].
  destruct s as [h [hd tl n]]; simpl in *.
  set (f := fresh (dom h)) in *.
  assert (Hf : h !! f = None) by (apply not_elem_of_dom, is_fresh).
  apply dllseg_app in Hseg as [Hxs [Ha Hys]]. simpl in *.
  rewrite fmap_app, fmap_cons in Hnd, Hfresh, Hdom. simpl in *.
  assert (HRest : NoDup (xs.*1 ++ f :: a :: ys.*1) ∧
    {[f]} ∪ dom h = list_to_set (xs.*1 ++ f :: a :: ys.*1) ∧
    length (xs ++ (f, v) :: (a, va) :: ys) = S (length (xs ++ (a, va) :: ys))).
  { split_and!.
    - by apply NoDup_mid_insert.
    - rewrite Hdom. symmetry. apply list_to_set_mid.
    - rewrite !length_app. simpl. lia. }
  destruct HRest as (Hnd' & Hdom' & Hlen').
  destruct (NoDup_mid _ _ _ Hnd) as (Hax & Hay & _ & Hxy).
  apply not_elem_of_app in Hfresh as [Hfx Hfy].
  apply not_elem_of_cons in Hfy as [Hfa Hfy].
  subst f.
  destruct xs as [|[c vc] xs _] using rev_ind; simpl in *.
  - exec_tac. eexists; split; [reflexivity|intros Hlt].
    rewrite !insert_insert_eq.
    split; simpl; try done; try lia.
    + split_and!; [by simplify_map_eq..|].
      eapply dllseg_frame; [|done]. frame_tac.
    + etrans; [|exact Hdom']. dom_tac. by rewrite dom_insert_L.
  - rewrite ?last_ptr_snoc in *. apply dllseg_app in Hxs as [Hxs [Hc' _]].
    rewrite fmap_app in *. simpl in *.
    apply not_elem_of_app in Hax as [Hax Hac].
    apply not_elem_of_cons in Hac as [Hac _].
    apply not_elem_of_app in Hfx as [Hfx Hfc].
    apply not_elem_of_cons in Hfc as [Hfc _].
    assert (Hcx : c ∉ xs.*1).
    { apply NoDup_app in Hnd as (Hnd & _ & _).
      by apply NoDup_mid in Hnd as (? & _). }
    assert (Hcy : c ∉ ys.*1).
    { intros Hcy. apply (Hxy c); [apply elem_of_app; right; left|done]. }
    exec_tac. eexists; split; [reflexivity|intros Hlt].
    rewrite !insert_insert_eq.
    rewrite <-!(assoc_L (++) xs). simpl.
    split; simpl; try done; try lia.
    + apply dllseg_app; split; simpl.
      * eapply dllseg_frame; [|done]. frame_tac.
      * split_and!; [by simplify_map_eq..|].
        eapply dllseg_frame; [|done]. frame_tac.
    + rewrite fmap_app. simpl. by rewrite <-(assoc_L (++)) in Hnd'.
    + rewrite fmap_app. simpl. rewrite <-(assoc_L (++)) in Hdom'.
      etrans; [|exact Hdom']. dom_tac. by rewrite dom_insert_L.
    + by rewrite !first_ptr_app.
    + by rewrite !last_ptr_app.
    + clear Hlen'; rewrite !length_app in *; simpl in *; lia.
    + clear Hlen'; rewrite !length_app in *; simpl in *; lia.
Qed.

Lemma addAfter_nil_spec s v :
  Rep s [] →
  ∃ s', addAfter None v s = Ret tt s' ∧ count (this s) < INT_MAX ∧
        Rep s' [(fresh (dom (heap s)), v)].
Proof.
  intros ->%Rep_nil_inv. unfold LinkedList_new. simpl.
  rewrite dom_empty_L. set (f := fresh (∅ : gset addr)).
  exec_tac. fold f. eexists; split_and!; [reflexivity|done|].
  split; simpl; try done.
  apply NoDup_singleton.
Qed.

Lemma addBefore_nil_spec s v :
  Rep s [] →
  ∃ s', addBefore None v s = Ret tt s' ∧ count (this s) < INT_MAX ∧
        Rep s' [(fresh (dom (heap s)), v)].
Proof.
  intros ->%Rep_nil_inv. unfold LinkedList_new. simpl.
  rewrite dom_empty_L. set (f := fresh (∅ : gset addr)).
  exec_tac. fold f. eexists; split_and!; [reflexivity|done|].
  split; simpl; try done.
  apply NoDup_singleton.
Qed.

(** *** The member functions *)

Lemma push_back_spec s cs v :
  Rep s cs →
  ∃ s',
    push_back v s =
      (if decide (count (this s) < INT_MAX) then Ret tt s' else Undef) ∧
    (count (this s) < INT_MAX → Rep s' (cs ++ [(fresh (dom (heap s)), v)])).
Proof.
  intros HRep.
  change (push_back v s) with (addAfter (tail (this s)) v s).
  rewrite (rep_tail _ _ HRep).
  destruct cs as [|[a va] xs _] using rev_ind.
  - destruct (addAfter_nil_spec s v HRep) as (s' & Hrun & Hlt & HRep').
    exists s'. by rewrite decide_True.
  - rewrite last_ptr_snoc.
    destruct (addAfter_spec s xs a va [] v HRep) as (s' & Hrun & HRep').
    exists s'. split; [done|]. by rewrite <-(assoc_L (++)).
Qed.

Lemma push_front_spec s cs v :
  Rep s cs →
  ∃ s',
    push_front v s =
      (if decide (count (this s) < INT_MAX) then Ret tt s' else Undef) ∧
    (count (this s) < INT_MAX → Rep s' ((fresh (dom (heap s)), v) :: cs)).
Proof.
  intros HRep.
  change (push_front v s) with (addBefore (head (this s)) v s).
  rewrite (rep_head _ _ HRep).
  destruct cs as [|[a va] ys].
  - destruct (addBefore_nil_spec s v HRep) as (s' & Hrun & Hlt & HRep').
    exists s'. by rewrite decide_True.
  - apply (addBefore_spec s [] a va ys v HRep).
Qed.

Lemma pop_front_nil s :
  Rep s [] →
  pop_front s = Throw (runtime_error "cannot remove from empty list") s.
Proof. by intros ->%Rep_nil_inv. Qed.

Lemma pop_back_nil s :
  Rep s [] →
  pop_back s = Throw (runtime_error "cannot remove from empty list") s.
Proof. by intros ->%Rep_nil_inv. Qed.

Lemma pop_front_cons s a v cs :
  Rep s ((a, v) :: cs) → ∃ s', pop_front s = Ret v s' ∧ Rep s' cs.
Proof.
  intros HRep.
  change (pop_front s) with (removeNode (head (this s)) s).
  rewrite (rep_head _ _ HRep). apply (removeNode_spec s [] a v cs HRep).
Qed.

Lemma pop_back_snoc s cs a v :
  Rep s (cs ++ [(a, v)]) → ∃ s', pop_back s = Ret v s' ∧ Rep s' cs.
Proof.
  intros HRep.
  change (pop_back s) with (removeNode (tail (this s)) s).
  rewrite (rep_tail _ _ HRep), last_ptr_snoc.
  destruct (removeNode_spec s cs a v [] HRep) as (s' & Hrun & HRep').
  exists s'. by rewrite app_nil_r in HRep'.
Qed.

Lemma front_nil s :
  Rep s [] → front s = Throw (runtime_error "list is empty") s.
Proof. by intros ->%Rep_nil_inv. Qed.

Lemma back_nil s :
  Rep s [] → back s = Throw (runtime_error "list is empty") s.
Proof. by intros ->%Rep_nil_inv. Qed.

Lemma front_cons s a v cs : Rep s ((a, v) :: cs) → front s = Ret v s.
Proof.
  intros [[Ha _] _ _ Hh _ _ _]. simpl in *.
  unfold front, get_head, get_data, deref, bind, ret. by rewrite Hh, Ha.
Qed.

Lemma back_snoc s cs a v : Rep s (cs ++ [(a, v)]) → back s = Ret v s.
Proof.
  intros [Hseg _ _ _ Ht _ _]. rewrite last_ptr_snoc in Ht.
  apply dllseg_app in Hseg as [_ [Ha _]]. simpl in *.
  unfold back, get_tail, get_data, deref, bind, ret. by rewrite Ht, Ha.
Qed.

(** *** Destruction of a chain *)

Lemma lookup_foldr_delete h (l : list addr) a :
  a ∉ l → foldr delete h l !! a = h !! a.
Proof.
  induction l as [|b l IH]; simpl; [done|].
  intros [Hab Hal]%not_elem_of_cons.
  rewrite lookup_delete_ne by done. auto.
Qed.

Lemma dom_foldr_delete h (l : list addr) :
  dom (foldr delete h l) = dom h ∖ list_to_set l.
Proof.
  induction l as [|b l IH]; simpl.
  - set_solver.
  - rewrite dom_delete_L, IH. set_solver.
Qed.

Lemma delete_Node_chain depth cs : ∀ h l p,
  dllseg h p cs None → NoDup cs.*1 →
  delete_Node depth (first_ptr cs None) (mkState h l) =
    if decide (length cs ≤ depth)%nat
    then Ret tt (mkState (foldr delete h cs.*1) l)
    else OutOfFuel.
Proof.
  revert depth. induction cs as [|[a v] cs IH]; intros depth h l p Hseg Hnd.
  - rewrite decide_True by (simpl; lia). by destruct depth.
  - destruct Hseg as [Ha Hseg]. simpl in Ha, Hseg.
    rewrite fmap_cons in Hnd. apply NoDup_cons in Hnd as [Hacs Hnd].
    simpl first_ptr. destruct depth as [|depth].
    { by rewrite decide_False by (simpl; lia). }
    simpl delete_Node.
    unfold bind at 1. unfold get_next at 1, deref, bind, ret. simpl.
    rewrite Ha. simpl.
    rewrite (IH depth h l (Some a) Hseg Hnd).
    destruct (decide (length cs ≤ depth)%nat) as [Hle|Hgt].
    + rewrite decide_True by lia. simpl.
      rewrite lookup_foldr_delete, Ha by done. simpl.
      unfold deallocate. simpl. rewrite lookup_insert_eq.
      by rewrite delete_insert_eq.
    + by rewrite decide_False by lia.
Qed.

Lemma clear_spec s cs depth :
  Rep s cs →
  clear depth s =
    if decide (length cs ≤ depth)%nat
    then Ret tt LinkedList_new
    else OutOfFuel.
Proof.
  intros [Hseg Hnd Hdom Hh _ _ _]. destruct s as [h l]. simpl in *.
  unfold clear. unfold bind at 1. unfold get_head. simpl.
  unfold bind at 1. rewrite Hh, (delete_Node_chain depth cs h l None Hseg Hnd).
  case_decide; [|done].
  assert (foldr delete h cs.*1 = ∅) as ->.
  { apply dom_empty_iff_L. rewrite dom_foldr_delete, Hdom. set_solver. }
  done.
Qed.

(** *** Walks and traversals *)

Lemma last_ptr_last cs p :
  last_ptr cs p = match last cs.*1 with Some a => Some a | None => p end.
Proof.
  destruct cs as [|[a v] cs _] using rev_ind; [done|].
  rewrite last_ptr_snoc, fmap_app. simpl. by rewrite last_snoc.
Qed.

Lemma last_ptr_nil_inv cs : last_ptr cs None = None → cs = [].
Proof.
  destruct cs as [|c cs _] using rev_ind; [done|].
  destruct c. by rewrite last_ptr_snoc.
Qed.

Lemma last_ptr_Some_inv cs a :
  last_ptr cs None = Some a → ∃ xs v, cs = xs ++ [(a, v)].
Proof.
  destruct cs as [|[c v] cs _] using rev_ind; [done|].
  rewrite last_ptr_snoc. intros [= ->]. eauto.
Qed.

Lemma elem_of_cells_split cs a :
  a ∈ cs.*1 → ∃ xs v ys, cs = xs ++ (a, v) :: ys.
Proof.
  intros ([a' v] & -> & Hin)%list_elem_of_fmap.
  apply list_elem_of_split in Hin as (xs & ys & ->). eauto.
Qed.

Lemma walk_dllseg h p cs fuel :
  dllseg h p cs None → (length cs ≤ fuel)%nat →
  walk fuel h (first_ptr cs None) = Some cs.*1.
Proof.
  revert p fuel. induction cs as [|[a v] cs IH]; intros p fuel Hseg Hlen.
  - by destruct fuel.
  - destruct Hseg as [Ha Hseg]. simpl in *.
    destruct fuel as [|fuel]; [lia|]. simpl. rewrite Ha. simpl.
    rewrite (IH (Some a)); [done..|lia].
Qed.

Lemma bind_Ret {A B} (m : M TValue A) (k : A → M TValue B) s (x : A) s' :
  m s = Ret x s' → bind m k s = k x s'.
Proof. unfold bind. by intros ->. Qed.

Lemma traverse_S fuel adv (it last : iterator) s :
  it_eq it last = false →
  traverse fuel adv it last s =
    match fuel with
    | O => OutOfFuel
    | S fuel' =>
        (v <- it_deref it ;;
         it' <- adv it ;;
         vs <- traverse fuel' adv it' last ;;
         ret (v :: vs)) s
    end.
Proof. intros H. destruct fuel; simpl; by rewrite H. Qed.

Lemma it_deref_eq h l a n :
  h !! a = Some n →
  it_deref (mkIterator (Some a)) (mkState h l) = Ret (data n) (mkState h l).
Proof.
  intros H. unfold it_deref, get_data, deref, bind, ret. simpl. by rewrite H.
Qed.

Lemma it_incr_eq h l a n :
  h !! a = Some n →
  it_incr (mkIterator (Some a)) (mkState h l) =
    Ret (mkIterator (next n)) (mkState h l).
Proof.
  intros H. unfold it_incr, get_next, deref, bind, ret. simpl. by rewrite H.
Qed.

Lemma it_decr_eq h l a n :
  h !! a = Some n →
  it_decr (mkIterator (Some a)) (mkState h l) =
    Ret (mkIterator (prev n)) (mkState h l).
Proof.
  intros H. unfold it_decr, get_prev, deref, bind, ret. simpl. by rewrite H.
Qed.

Lemma traverse_forward h l p cs fuel :
  dllseg h p cs None →
  traverse fuel it_incr (mkIterator (first_ptr cs None)) (mkIterator None)
    (mkState h l) =
  if decide (length cs ≤ fuel)%nat then Ret cs.*2 (mkState h l)
  else OutOfFuel.
Proof.
  revert p fuel. induction cs as [|[a v] cs IH]; intros p fuel Hseg.
  - rewrite decide_True by (simpl; lia). by destruct fuel.
  - destruct Hseg as [Ha Hseg]. simpl in Ha, Hseg.
    rewrite traverse_S by done.
    destruct fuel as [|fuel]; [by rewrite decide_False by (simpl; lia)|].
    erewrite bind_Ret by (by apply it_deref_eq).
    erewrite bind_Ret by (by apply it_incr_eq).
    simpl next. unfold bind. rewrite (IH (Some a)) by done.
    destruct (decide (length cs ≤ fuel)%nat).
    + by rewrite decide_True by (simpl; lia).
    + by rewrite decide_False by (simpl; lia).
Qed.

Lemma traverse_backward h l cs : ∀ q fuel,
  dllseg h None cs q →
  traverse fuel it_decr (mkIterator (last_ptr cs None)) (mkIterator None)
    (mkState h l) =
  if decide (length cs ≤ fuel)%nat then Ret (rev cs.*2) (mkState h l)
  else OutOfFuel.
Proof.
  induction cs as [|[a v] cs IH] using rev_ind; intros q fuel Hseg.
  - rewrite decide_True by (simpl; lia). by destruct fuel.
  - apply dllseg_app in Hseg as [Hseg [Ha _]]. simpl in Ha, Hseg.
    rewrite last_ptr_snoc, fmap_app, rev_app_distr, length_app. simpl.
    rewrite traverse_S by done.
    destruct fuel as [|fuel]; [by rewrite decide_False by lia|].
    erewrite bind_Ret by (by apply it_deref_eq).
    erewrite bind_Ret by (by apply it_decr_eq).
    simpl prev. unfold bind. rewrite (IH (Some a)) by done.
    destruct (decide (length cs ≤ fuel)%nat).
    + by rewrite decide_True by lia.
    + by rewrite decide_False by lia.
Qed.

(** *** From the representation to the structural invariants *)

Lemma Rep_lookup_in s cs a n :
  Rep s cs → heap s !! a = Some n → a ∈ cs.*1.
Proof.
  intros HRep Ha.
  assert (Hin : a ∈ dom (heap s)) by (apply elem_of_dom; eauto).
  rewrite (rep_dom _ _ HRep) in Hin. by apply elem_of_list_to_set in Hin.
Qed.

Lemma Rep_Invariant s cs : Rep s cs → Invariant s.
Proof.
  intros HRep. pose proof (λ a n, Rep_lookup_in s cs a n HRep) as Hin'.
  destruct HRep as [Hseg Hnd Hdom Hh Ht Hc Hr].
  split.
  - rewrite Hc, Hh. destruct cs; simpl; split; (done || lia).
  - rewrite Hh, Ht. split.
    + by destruct cs.
    + by intros ->%last_ptr_nil_inv.
  - rewrite Hc, Hh, Ht. destruct cs as [|c [|c' cs]]; simpl; (done || lia).
  - exists cs.*1. split_and!.
    + rewrite Hh. eapply walk_dllseg; [done|]. lia.
    + rewrite length_fmap. lia.
    + rewrite Ht, last_ptr_last. by destruct (last _).
    + intros t Htl. rewrite Ht in Htl.
      apply last_ptr_Some_inv in Htl as (xs & v & ->).
      apply dllseg_app in Hseg as [_ [Ha _]]. simpl in Ha. by rewrite Ha.
  - intros a n b Ha Hn.
    pose proof (Hin' _ _ Ha) as Hin.
    apply elem_of_cells_split in Hin as (xs & v & ys & ->).
    apply dllseg_app in Hseg as [_ [Ha' Hys]]. simpl in *.
    rewrite Ha in Ha'. injection Ha' as ->. simpl in Hn.
    destruct ys as [|[b' vb] ys]; simplify_eq/=.
    destruct Hys as [Hb _]. by rewrite Hb.
  - intros a n b Ha Hn.
    pose proof (Hin' _ _ Ha) as Hin.
    apply elem_of_cells_split in Hin as (xs & v & ys & ->).
    apply dllseg_app in Hseg as [Hxs [Ha' _]]. simpl in *.
    rewrite Ha in Ha'. injection Ha' as ->. simpl in Hn.
    apply last_ptr_Some_inv in Hn as (xs' & vb & ->).
    apply dllseg_app in Hxs as [_ [Hb _]]. simpl in Hb. by rewrite Hb.
Qed.

(** *** Sequences of calls *)

Lemma call_Rep depth o s cs :
  Rep s cs →
  match call depth o s with
  | Ret _ s' => ∃ cs', Rep s' cs' ∧ effect o cs cs'
  | Throw _ s' => s' = s ∧ cs = [] ∧ is_pop o = true
  | Undef => is_push o = true ∧ Z.of_nat (length cs) = INT_MAX
  | OutOfFuel => o = Clear ∧ (depth < length cs)%nat
  end.
Proof.
  intros HRep. pose proof (rep_count _ _ HRep) as Hc.
  pose proof (rep_range _ _ HRep) as Hr.
  destruct o as [v|v| | |]; simpl.
  - destruct (push_front_spec s cs v HRep) as (s' & -> & HRep').
    case_decide; [|split; [done|lia]].
    eexists; split; [by apply HRep'|]. simpl. eauto.
  - destruct (push_back_spec s cs v HRep) as (s' & -> & HRep').
    case_decide; [|split; [done|lia]].
    eexists; split; [by apply HRep'|]. simpl. eauto.
  - unfold bind. destruct cs as [|[a v] cs].
    + by rewrite (pop_front_nil s HRep).
    + destruct (pop_front_cons s a v cs HRep) as (s' & -> & HRep').
      simpl. eauto.
  - unfold bind. destruct cs as [|[a v] cs _] using rev_ind.
    + by rewrite (pop_back_nil s HRep).
    + destruct (pop_back_snoc s cs a v HRep) as (s' & -> & HRep').
      simpl. eauto.
  - rewrite (clear_spec s cs depth HRep). case_decide.
    + exists []. split; [apply Rep_new|done].
    + split; [done|lia].
Qed.

Lemma exec_catching_Rep depth ops : ∀ s cs s',
  Rep s cs → exec_catching depth ops s = Ret tt s' → ∃ cs', Rep s' cs'.
Proof.
  induction ops as [|o ops IH]; intros s cs s' HRep Hrun; simpl in Hrun.
  - injection Hrun as <-. eauto.
  - unfold bind, try_catch in Hrun.
    pose proof (call_Rep depth o s cs HRep) as Hcall.
    destruct (call depth o s) as [[] s1|e s1| |]; try done.
    + destruct Hcall as (cs1 & HRep1 & _). eauto.
    + destruct Hcall as (-> & _). eauto.
Qed.

Lemma reachable_Rep s : reachable s → ∃ cs, Rep s cs.
Proof. intros (depth & ops & Hrun). eapply exec_catching_Rep; [apply Rep_new|done]. Qed.

Lemma exec_exec_catching depth ops : ∀ s s',
  exec depth ops s = Ret tt s' → exec_catching depth ops s = Ret tt s'.
Proof.
  induction ops as [|o ops IH]; intros s s' Hrun; simpl in *; [done|].
  unfold bind, try_catch in *.
  destruct (call depth o s) as [[] s1|e s1| |]; try done. auto.
Qed.

Lemma exec_reachable depth ops s :
  exec depth ops LinkedList_new = Ret tt s → reachable s.
Proof. intros H. exists depth, ops. by apply exec_exec_catching. Qed.

Lemma exec_length depth ops : ∀ s cs s',
  Rep s cs → forallb (λ o, is_push o || is_pop o) ops = true →
  exec depth ops s = Ret tt s' →
  ∃ cs', Rep s' cs' ∧
    Z.of_nat (length cs') =
    Z.of_nat (length cs) + count_ops is_push ops - count_ops is_pop ops.
Proof.
  induction ops as [|o ops IH]; intros s cs s' HRep Hops Hrun; simpl in *.
  - injection Hrun as <-. exists cs. split; [done|lia].
  - apply andb_prop in Hops as [Ho Hops]. unfold bind in Hrun.
    pose proof (call_Rep depth o s cs HRep) as Hcall.
    destruct (call depth o s) as [[] s1|e s1| |]; try done.
    destruct Hcall as (cs1 & HRep1 & Heff).
    destruct (IH s1 cs1 s' HRep1 Hops Hrun) as (cs' & HRep' & Hlen).
    exists cs'. split; [done|]. rewrite Hlen.
    destruct o; simpl in *; try done.
    + destruct Heff as [a ->]. simpl. lia.
    + destruct Heff as [a ->]. rewrite length_app. simpl. lia.
    + destruct Heff as [c ->]. simpl. lia.
    + destruct Heff as [c ->]. rewrite length_app. simpl. lia.
Qed.

Lemma exec_pushes depth ops : ∀ s cs,
  Rep s cs → forallb is_push ops = true →
  Z.of_nat (length cs + length ops) ≤ INT_MAX →
  ∃ s' cs', exec depth ops s = Ret tt s' ∧ Rep s' cs' ∧
    cs'.*2 = push_order ops cs.*2.
Proof.
  induction ops as [|o ops IH]; intros s cs HRep Hops Hlen; simpl in *.
  - exists s, cs. done.
  - apply andb_prop in Hops as [Ho Hops]. unfold bind.
    pose proof (call_Rep depth o s cs HRep) as Hcall.
    destruct (call depth o s) as [[] s1|e s1| |].
    + destruct Hcall as (cs1 & HRep1 & Heff).
      destruct o as [v|v| | |]; try done; destruct Heff as [a ->].
      * destruct (IH s1 _ HRep1 Hops) as (s' & cs' & ? & ? & ?);
          [simpl; lia|eauto].
      * destruct (IH s1 _ HRep1 Hops) as (s' & cs' & ? & ? & Hvs);
          [rewrite length_app; simpl; lia|].
        rewrite fmap_app in Hvs. eauto.
    + destruct Hcall as (_ & _ & Hpop). by destruct o.
    + destruct Hcall as [_ Hmax]. lia.
    + destruct Hcall as [-> _]. done.
Qed.

(** *** Observations on a represented state *)

Lemma cons_snoc {A} (x : A) (l : list A) : ∃ l' y, x :: l = l' ++ [y].
Proof.
  revert x. induction l as [|z l IH]; intros x.
  - by exists [], x.
  - destruct (IH z) as (l' & y & ->). by exists (x :: l'), y.
Qed.

Lemma Rep_size s cs : Rep s cs → size s = Z.of_nat (length cs).
Proof.
  intros [_ _ _ _ _ Hc Hr]. unfold size. rewrite Hc.
  apply Z.mod_small. unfold INT_MAX, SIZE_WIDTH in *. lia.
Qed.

Lemma Rep_empty s cs : Rep s cs → empty s = true ↔ cs = [].
Proof.
  intros [_ _ _ Hh _ _ _]. unfold empty. rewrite Hh, bool_decide_eq_true.
  by destruct cs.
Qed.

Lemma Rep_size_0 s cs : Rep s cs → size s = 0 ↔ cs = [].
Proof.
  intros HRep. rewrite (Rep_size s cs HRep).
  destruct cs; simpl; split; (done || lia).
Qed.

(** C1. Every reachable list state, that is every state a finite sequence of
    [push_front], [push_back], [pop_front], [pop_back] and [clear] calls
    produces from a newly constructed list, satisfies the structural
    invariants: [count] is 0 iff [head] is null iff [tail] is null; when
    [count] is 1, [head] and [tail] coincide; the walk from [head] along
    [next] visits exactly [count] nodes, ends at [tail], and [tail] has no
    successor; and the [next] and [prev] links of neighbouring nodes mirror
    each other. *)
Theorem reachable_Invariant s : reachable s → Invariant s.
Proof.
  intros [cs HRep]%reachable_Rep. by eapply Rep_Invariant.
Qed.

(** C2. On a reachable list state each of [front], [back], [pop_front] and
    [pop_back] raises exactly when [size] is 0, and a call that raises leaves
    the state as it was: still empty and still satisfying the invariants. *)
Theorem empty_access_raises s :
  reachable s →
  (raises front s ↔ size s = 0) ∧
  (raises back s ↔ size s = 0) ∧
  (raises pop_front s ↔ size s = 0) ∧
  (raises pop_back s ↔ size s = 0) ∧
  (∀ e s',
     front s = Throw e s' ∨ back s = Throw e s' ∨
     pop_front s = Throw e s' ∨ pop_back s = Throw e s' →
     s' = s ∧ empty s' = true ∧ Invariant s').
Proof.
  intros [cs HRep]%reachable_Rep.
  pose proof (Rep_size_0 s cs HRep) as Hsize.
  pose proof (Rep_empty s cs HRep) as Hempty.
  pose proof (Rep_Invariant s cs HRep) as Hinv.
  unfold raises. rewrite Hsize.
  destruct cs as [|[a v] cs].
  - rewrite (front_nil s HRep), (back_nil s HRep), (pop_front_nil s HRep),
      (pop_back_nil s HRep).
    split_and!; try (split; [done|eauto]).
    intros e s' H. assert (s' = s) as -> by (destruct_or!; congruence).
    split_and!; [done|by apply Hempty|done].
  - destruct (pop_front_cons s a v cs HRep) as (s1 & Hpf & _).
    rewrite (front_cons s a v cs HRep), Hpf.
    destruct (cons_snoc (a, v) cs) as (xs & [b w] & Hsnoc).
    rewrite Hsnoc in HRep.
    destruct (pop_back_snoc s xs b w HRep) as (s2 & Hpb & _).
    rewrite (back_snoc s xs b w HRep), Hpb.
    split_and!; try (split; [by intros (? & ? & ?)|done]).
    intros e s' H. destruct_or!; done.
Qed.


Lemma exec_pushes_inv depth ops : ∀ s cs s',
  Rep s cs → forallb is_push ops = true →
  exec depth ops s = Ret tt s' →
  ∃ cs', Rep s' cs' ∧ cs'.*2 = push_order ops cs.*2 ∧
         length cs' = (length cs + length ops)%nat.
Proof.
  induction ops as [|o ops IH]; intros s cs s' HRep Hops Hrun; simpl in *.
  - injection Hrun as <-. exists cs. split_and!; [done..|lia].
  - apply andb_prop in Hops as [Ho Hops]. unfold bind in Hrun.
    pose proof (call_Rep depth o s cs HRep) as Hcall.
    destruct (call depth o s) as [[] s1|e s1| |]; try done.
    destruct Hcall as (cs1 & HRep1 & Heff).
    destruct (IH s1 cs1 s' HRep1 Hops Hrun) as (cs' & HRep' & Hvs & Hlen).
    exists cs'. destruct o as [v|v| | |]; try done; destruct Heff as [a ->].
    + split_and!; [done..|]. simpl in Hlen. lia.
    + rewrite fmap_app in Hvs. split_and!; [done..|].
      rewrite length_app in Hlen. simpl in Hlen. lia.
Qed.

Lemma Rep_forward s cs fuel :
  Rep s cs →
  forward_traversal fuel s =
    if decide (length cs ≤ fuel)%nat then Ret cs.*2 s else OutOfFuel.
Proof.
  intros [Hseg _ _ Hh _ _ _]. unfold forward_traversal, begin, end_.
  rewrite Hh. destruct s as [h l]. by eapply traverse_forward.
Qed.

Lemma Rep_backward s cs fuel :
  Rep s cs →
  backward_traversal fuel s =
    if decide (length cs ≤ fuel)%nat then Ret (rev cs.*2) s else OutOfFuel.
Proof.
  intros [Hseg _ _ _ Ht _ _]. unfold backward_traversal, rbegin, rend.
  rewrite Ht. destruct s as [h l]. by eapply traverse_backward.
Qed.

(** C3. On the list a sequence of pushes produces, the forward traversal
    from [begin] to [end_] takes [size] iterations and visits the values in
    push order ([push_back] appends, [push_front] prepends), and the backward
    traversal from [rbegin] to [rend] visits the same values in reverse. *)
Theorem traversal_push_order depth ops s :
  forallb is_push ops = true →
  exec depth ops LinkedList_new = Ret tt s →
  size s = Z.of_nat (length ops) ∧
  length (push_order ops []) = length ops ∧
  (∀ fuel,
     forward_traversal fuel s =
       if decide (Z.to_nat (size s) ≤ fuel)%nat
       then Ret (push_order ops []) s else OutOfFuel) ∧
  (∀ fuel,
     backward_traversal fuel s =
       if decide (Z.to_nat (size s) ≤ fuel)%nat
       then Ret (rev (push_order ops [])) s else OutOfFuel).
Proof.
  intros Hops Hrun.
  destruct (exec_pushes_inv depth ops _ [] s Rep_new Hops Hrun)
    as (cs & HRep & Hvs & Hlen).
  simpl in Hvs, Hlen. rewrite (Rep_size s cs HRep), Hlen, Nat2Z.id, <-Hvs.
  split_and!; [done|by rewrite length_fmap|..]; intros fuel.
  - by rewrite (Rep_forward s cs fuel HRep), Hlen.
  - by rewrite (Rep_backward s cs fuel HRep), Hlen.
Qed.

Lemma push_back_pop_back s cs v :
  Rep s cs → Z.of_nat (length cs) < INT_MAX →
  (push_back v ;; pop_back) s = Ret v s.
Proof.
  intros HRep Hlt. unfold bind.
  destruct (push_back_spec s cs v HRep) as (s1 & -> & HRep1).
  rewrite (rep_count _ _ HRep), decide_True by done.
  specialize (HRep1 ltac:(by rewrite (rep_count _ _ HRep))).
  destruct (pop_back_snoc s1 cs _ v HRep1) as (s2 & -> & HRep2).
  f_equal. by eapply Rep_inj.
Qed.

Lemma push_front_pop_front s cs v :
  Rep s cs → Z.of_nat (length cs) < INT_MAX →
  (push_front v ;; pop_front) s = Ret v s.
Proof.
  intros HRep Hlt. unfold bind.
  destruct (push_front_spec s cs v HRep) as (s1 & -> & HRep1).
  rewrite (rep_count _ _ HRep), decide_True by done.
  specialize (HRep1 ltac:(by rewrite (rep_count _ _ HRep))).
  destruct (pop_front_cons s1 _ v cs HRep1) as (s2 & -> & HRep2).
  f_equal. by eapply Rep_inj.
Qed.

(** C4. On a reachable list state with room for one more node, [push_back v]
    followed at once by [pop_back] returns [v] and leaves [size] (indeed the
    whole state) as before the push; likewise [push_front v] followed by
    [pop_front]. *)
Theorem push_pop_inverse s v :
  reachable s → size s < INT_MAX →
  (∃ s', (push_back v ;; pop_back) s = Ret v s' ∧ size s' = size s ∧ s' = s) ∧
  (∃ s', (push_front v ;; pop_front) s = Ret v s' ∧ size s' = size s ∧
         s' = s).
Proof.
  intros [cs HRep]%reachable_Rep Hlt. rewrite (Rep_size s cs HRep) in Hlt.
  split; exists s.
  - by rewrite (push_back_pop_back s cs v).
  - by rewrite (push_front_pop_front s cs v).
Qed.

(** C5. After a sequence of pushes and pops on a newly constructed list in
    which every call returns (so no pop met an empty list), [size] is the
    number of pushes minus the number of pops, and [empty] holds iff [size]
    is 0. *)
Theorem size_pushes_minus_pops depth ops s :
  forallb (λ o, is_push o || is_pop o) ops = true →
  exec depth ops LinkedList_new = Ret tt s →
  size s = count_ops is_push ops - count_ops is_pop ops ∧
  (empty s = true ↔ size s = 0).
Proof.
  intros Hops Hrun.
  destruct (exec_length depth ops _ [] s Rep_new Hops Hrun)
    as (cs & HRep & Hlen).
  rewrite (Rep_size s cs HRep), Hlen. split; [simpl; lia|].
  rewrite <-Hlen, <-(Rep_size s cs HRep).
  by rewrite (Rep_empty s cs HRep), (Rep_size_0 s cs HRep).
Qed.

(** C6. On a reachable list state [clear], given room for the destructor
    chain, returns a state with [size] 0, [empty] true, [head] and [tail]
    null; that state is the newly constructed one, so a following
    [push_back] behaves as on a new list. *)
Theorem clear_resets s depth :
  reachable s → size s ≤ Z.of_nat depth →
  ∃ s', clear depth s = Ret tt s' ∧
        size s' = 0 ∧ empty s' = true ∧
        head (this s') = None ∧ tail (this s') = None ∧
        s' = LinkedList_new ∧
        (∀ v, push_back v s' = push_back v LinkedList_new).
Proof.
  intros [cs HRep]%reachable_Rep Hle. rewrite (Rep_size s cs HRep) in Hle.
  exists LinkedList_new.
  rewrite (clear_spec s cs depth HRep), decide_True by lia. done.
Qed.

(** C7, as amended. [clear] and the list destructor release the chain of a
    reachable list through the nest of [~Node] activations, one per node:
    the call completes, leaving the newly constructed state, exactly when
    the call stack has room for [size] nested activations, and runs out of
    room otherwise. *)
Theorem clear_depth_linear s depth :
  reachable s →
  (clear depth s = Ret tt LinkedList_new ↔ size s ≤ Z.of_nat depth) ∧
  (clear depth s = OutOfFuel ↔ Z.of_nat depth < size s) ∧
  LinkedList_dtor depth s = clear depth s.
Proof.
  intros [cs HRep]%reachable_Rep.
  unfold LinkedList_dtor.
  rewrite (Rep_size s cs HRep), (clear_spec s cs depth HRep).
  split_and!; [| |done]; case_decide; split; (done || lia).
Qed.

(** C8. On a reachable list state [begin] equals [end_] iff the list is
    empty; [begin] addresses the head node, [end_] is the sentinel, and two
    iterators are equal iff both are the sentinel or both address the same
    node. *)
Theorem begin_end_empty s :
  reachable s →
  (it_eq (begin s) (end_ s) = true ↔ empty s = true) ∧
  (it_eq (begin s) (end_ s) = true ↔ size s = 0) ∧
  it_node (begin s) = head (this s) ∧
  it_node (end_ s) = None ∧
  (∀ i j,
     it_eq i j = true ↔
     (it_node i = None ∧ it_node j = None) ∨
     (∃ a, it_node i = Some a ∧ it_node j = Some a)).
Proof.
  intros [cs HRep]%reachable_Rep.
  assert (Heq : it_eq (begin s) (end_ s) = empty s).
  { unfold it_eq, empty. by apply bool_decide_ext. }
  split_and!; try done.
  - by rewrite Heq.
  - by rewrite Heq, (Rep_size_0 s cs HRep), <-(Rep_empty s cs HRep).
  - intros [[a|]] [[b|]]; unfold it_eq; rewrite bool_decide_eq_true; simpl;
      naive_solver.
Qed.

(** C10. [clear] on a reachable empty list returns with the state unchanged:
    [head] and [tail] null, [count] 0, invariants valid, also when called
    twice in a row; and on any reachable list a second [clear], or the
    destructor after a [clear], changes nothing more. *)
Theorem clear_idempotent s depth :
  reachable s →
  (empty s = true →
   clear depth s = Ret tt s ∧
   head (this s) = None ∧ tail (this s) = None ∧ count (this s) = 0 ∧
   Invariant s ∧
   (clear depth ;; clear depth) s = Ret tt s) ∧
  (size s ≤ Z.of_nat depth →
   (clear depth ;; clear depth) s = clear depth s ∧
   (clear depth ;; LinkedList_dtor depth) s = clear depth s ∧
   clear depth s = Ret tt LinkedList_new).
Proof.
  intros [cs HRep]%reachable_Rep. split.
  - intros ->%(Rep_empty s cs HRep). apply Rep_nil_inv in HRep as ->.
    assert (Hclear : clear depth (@LinkedList_new TValue) = Ret tt LinkedList_new).
    { by rewrite (clear_spec _ [] depth Rep_new), decide_True by (simpl; lia). }
    unfold bind. rewrite !Hclear. split_and!; try done.
    apply (Rep_Invariant _ [] Rep_new).
  - rewrite (Rep_size s cs HRep). intros Hle. unfold LinkedList_dtor, bind.
    rewrite (clear_spec s cs depth HRep), decide_True by lia.
    by rewrite (clear_spec _ [] depth Rep_new), decide_True by (simpl; lia).
Qed.


Lemma last_ptr_nonempty cs p p' : cs ≠ [] → last_ptr cs p = last_ptr cs p'.
Proof.
  destruct cs as [|[a v] cs _] using rev_ind; [done|].
  by rewrite !last_ptr_snoc.
Qed.

Lemma first_ptr_nonempty cs q q' : cs ≠ [] → first_ptr cs q = first_ptr cs q'.
Proof. by destruct cs. Qed.

Lemma dllseg_node h p xs a v ys q :
  dllseg h p (xs ++ (a, v) :: ys) q →
  h !! a = Some (mkNode v (first_ptr ys q) (last_ptr xs p)).
Proof. by intros [_ [Ha _]]%dllseg_app. Qed.

Lemma node_frame_front h h' cs f v a n :
  dllseg h None cs None → dllseg h' None ((f, v) :: cs) None →
  a ∈ cs.*1 → h !! a = Some n →
  (Some a ≠ first_ptr cs None → h' !! a = Some n) ∧
  (∃ n', h' !! a = Some n' ∧ data n' = data n ∧ next n' = next n).
Proof.
  intros Hseg Hseg' (xs & va & ys & ->)%elem_of_cells_split Ha.
  rewrite (dllseg_node _ _ _ _ _ _ _ Hseg) in Ha. injection Ha as <-.
  rewrite app_comm_cons in Hseg'. apply dllseg_node in Hseg'.
  simpl in Hseg'. split; [|eauto].
  intros Hhd. destruct xs as [|x xs]; [done|].
  by rewrite Hseg', (last_ptr_nonempty _ (Some f) None).
Qed.

Lemma node_frame_back h h' cs f v a n :
  dllseg h None cs None → dllseg h' None (cs ++ [(f, v)]) None →
  a ∈ cs.*1 → h !! a = Some n →
  (Some a ≠ last_ptr cs None → h' !! a = Some n) ∧
  (∃ n', h' !! a = Some n' ∧ data n' = data n ∧ prev n' = prev n).
Proof.
  intros Hseg Hseg' (xs & va & ys & ->)%elem_of_cells_split Ha.
  rewrite (dllseg_node _ _ _ _ _ _ _ Hseg) in Ha. injection Ha as <-.
  rewrite <-(assoc_L (++)) in Hseg'. simpl in Hseg'.
  apply dllseg_node in Hseg'. rewrite first_ptr_app in Hseg'.
  simpl in Hseg'. split; [|eauto].
  intros Htl. rewrite last_ptr_app in Htl. simpl in Htl.
  destruct ys as [|y ys]; [done|]. done.
Qed.

(** C9. On a reachable non-empty list state with room for one more node,
    [push_front v] leaves [tail] and the value of [back] unchanged, keeps
    every node but the old head as it was, and changes nothing but the
    [prev] link of the old head; symmetrically [push_back v] leaves [head]
    and the value of [front] unchanged and changes nothing but the [next]
    link of the old tail. *)
Theorem push_frame s v :
  reachable s → empty s = false → size s < INT_MAX →
  (∃ s' x,
     push_front v s = Ret tt s' ∧
     tail (this s') = tail (this s) ∧
     back s = Ret x s ∧ back s' = Ret x s' ∧
     (∀ a n, heap s !! a = Some n → Some a ≠ head (this s) →
             heap s' !! a = Some n) ∧
     (∀ a n, heap s !! a = Some n →
             ∃ n', heap s' !! a = Some n' ∧
                   data n' = data n ∧ next n' = next n)) ∧
  (∃ s' x,
     push_back v s = Ret tt s' ∧
     head (this s') = head (this s) ∧
     front s = Ret x s ∧ front s' = Ret x s' ∧
     (∀ a n, heap s !! a = Some n → Some a ≠ tail (this s) →
             heap s' !! a = Some n) ∧
     (∀ a n, heap s !! a = Some n →
             ∃ n', heap s' !! a = Some n' ∧
                   data n' = data n ∧ prev n' = prev n)).
Proof.
  intros [cs HRep]%reachable_Rep Hne Hlt.
  rewrite (Rep_size s cs HRep) in Hlt.
  assert (Hcs : cs ≠ []).
  { intros Hnil%(Rep_empty s cs HRep). congruence. }
  pose proof (λ a n, Rep_lookup_in s cs a n HRep) as Hin.
  pose proof (rep_count _ _ HRep) as Hc.
  split.
  - destruct (push_front_spec s cs v HRep) as (s' & Hrun & HRep').
    rewrite Hc, decide_True in Hrun by done.
    specialize (HRep' ltac:(by rewrite Hc)).
    destruct cs as [|c cs0]; [done|].
    destruct (cons_snoc c cs0) as (xs & [b w] & Hsnoc).
    exists s', w. split_and!.
    + done.
    + rewrite (rep_tail _ _ HRep), (rep_tail _ _ HRep'). simpl.
      done.
    + rewrite Hsnoc in HRep. by apply (back_snoc s xs b w).
    + rewrite Hsnoc, app_comm_cons in HRep'. by eapply back_snoc.
    + intros a n Ha. rewrite (rep_head _ _ HRep).
      eapply node_frame_front; [apply HRep|apply HRep'|by eapply Hin|done].
    + intros a n Ha.
      eapply node_frame_front; [apply HRep|apply HRep'|by eapply Hin|done].
  - destruct (push_back_spec s cs v HRep) as (s' & Hrun & HRep').
    rewrite Hc, decide_True in Hrun by done.
    specialize (HRep' ltac:(by rewrite Hc)).
    destruct cs as [|[b w] cs0]; [done|].
    exists s', w. split_and!.
    + done.
    + by rewrite (rep_head _ _ HRep), (rep_head _ _ HRep').
    + by apply (front_cons s b w cs0).
    + by apply (front_cons s' b w (cs0 ++ [(fresh (dom (heap s)), v)])).
    + intros a n Ha. rewrite (rep_tail _ _ HRep).
      eapply node_frame_back; [apply HRep|apply HRep'|by eapply Hin|done].
    + intros a n Ha.
      eapply node_frame_back; [apply HRep|apply HRep'|by eapply Hin|done].
Qed.

End Representation.

(** ** The scenarios of the specification, run on the model *)

Example scenario_push_back_three :
  let s := state_after 0 three_pushes in
  forward_traversal 3 s = Ret [1; 2; 3] s ∧
  ∃ s', pop_front s = Ret 1 s' ∧ size s' = 2 ∧ back s' = Ret 3 s'.
Proof.
  split; [by vm_compute|]. eexists. split; [by vm_compute|]. by vm_compute.
Qed.

Example scenario_push_front_two :
  let s := state_after 0 [PushFront 1; PushFront 2] in
  forward_traversal 2 s = Ret [2; 1] s ∧ ∃ s', pop_back s = Ret 1 s'.
Proof. split; [by vm_compute|]. eexists. by vm_compute. Qed.

Example scenario_new_list :
  empty (@LinkedList_new Z) = true ∧
  pop_front (@LinkedList_new Z) =
    Throw (runtime_error "cannot remove from empty list") LinkedList_new.
Proof. by vm_compute. Qed.

(** ** The theorems at concrete list states *)

Lemma reachable_Invariant_witness :
  reachable (state_after 3 mixed_calls) ∧
  Invariant (state_after 3 mixed_calls).
Proof.
  assert (H : reachable (state_after 3 mixed_calls)).
  { exists 3%nat, mixed_calls. vm_compute. reflexivity. }
  split; [exact H|]. exact (reachable_Invariant _ H).
Defined.

Lemma empty_access_raises_witness :
  reachable (state_after 3 mixed_calls) ∧
  (raises front (state_after 3 mixed_calls) ↔
   size (state_after 3 mixed_calls) = 0).
Proof.
  assert (H : reachable (state_after 3 mixed_calls)).
  { exists 3%nat, mixed_calls. vm_compute. reflexivity. }
  split; [exact H|]. exact (proj1 (empty_access_raises _ H)).
Defined.

Lemma traversal_push_order_witness :
  forallb is_push front_and_back_pushes = true ∧
  exec 0 front_and_back_pushes LinkedList_new =
    Ret tt (state_after 0 front_and_back_pushes) ∧
  forward_traversal 4 (state_after 0 front_and_back_pushes) =
    Ret [4; 2; 1; 3] (state_after 0 front_and_back_pushes) ∧
  backward_traversal 4 (state_after 0 front_and_back_pushes) =
    Ret [3; 1; 2; 4] (state_after 0 front_and_back_pushes).
Proof.
  assert (H1 : forallb is_push front_and_back_pushes = true) by reflexivity.
  assert (H2 : exec 0 front_and_back_pushes LinkedList_new =
               Ret tt (state_after 0 front_and_back_pushes))
    by (vm_compute; reflexivity).
  split; [exact H1|]. split; [exact H2|].
  destruct (traversal_push_order 0 front_and_back_pushes _ H1 H2)
    as (_ & _ & Hf & Hb).
  split; [exact (Hf 4%nat)|exact (Hb 4%nat)].
Defined.

Lemma push_pop_inverse_witness :
  reachable (state_after 0 three_pushes) ∧
  size (state_after 0 three_pushes) < INT_MAX ∧
  (push_back 7 ;; pop_back) (state_after 0 three_pushes) =
    Ret 7 (state_after 0 three_pushes).
Proof.
  assert (H1 : reachable (state_after 0 three_pushes)).
  { exists 0%nat, three_pushes. vm_compute. reflexivity. }
  assert (H2 : size (state_after 0 three_pushes) < INT_MAX) by reflexivity.
  split; [exact H1|]. split; [exact H2|].
  destruct (push_pop_inverse _ 7 H1 H2) as [(s' & Hrun & _ & ->) _].
  exact Hrun.
Defined.

Lemma size_pushes_minus_pops_witness :
  forallb (λ o, is_push o || is_pop o) pushes_and_pops = true ∧
  exec 0 pushes_and_pops LinkedList_new =
    Ret tt (state_after 0 pushes_and_pops) ∧
  size (state_after 0 pushes_and_pops) = 4 - 2.
Proof.
  assert (H1 : forallb (λ o, is_push o || is_pop o) pushes_and_pops = true)
    by reflexivity.
  assert (H2 : exec 0 pushes_and_pops LinkedList_new =
               Ret tt (state_after 0 pushes_and_pops))
    by (vm_compute; reflexivity).
  split; [exact H1|]. split; [exact H2|].
  exact (proj1 (size_pushes_minus_pops 0 pushes_and_pops _ H1 H2)).
Defined.

Lemma clear_resets_witness :
  reachable (state_after 0 three_pushes) ∧
  size (state_after 0 three_pushes) ≤ Z.of_nat 3 ∧
  clear 3 (state_after 0 three_pushes) = Ret tt LinkedList_new.
Proof.
  assert (H1 : reachable (state_after 0 three_pushes)).
  { exists 0%nat, three_pushes. vm_compute. reflexivity. }
  assert (H2 : size (state_after 0 three_pushes) ≤ Z.of_nat 3).
  { vm_compute. discriminate. }
  split; [exact H1|]. split; [exact H2|].
  destruct (clear_resets _ 3 H1 H2) as (s' & Hrun & _ & _ & _ & _ & -> & _).
  exact Hrun.
Defined.

Lemma clear_depth_linear_witness :
  reachable (state_after 0 three_pushes) ∧
  (clear 2 (state_after 0 three_pushes) = OutOfFuel ↔
   Z.of_nat 2 < size (state_after 0 three_pushes)).
Proof.
  assert (H1 : reachable (state_after 0 three_pushes)).
  { exists 0%nat, three_pushes. vm_compute. reflexivity. }
  split; [exact H1|].
  exact (proj1 (proj2 (clear_depth_linear _ 2 H1))).
Defined.

(** The chain is not released iteratively: the destructor of a node deletes
    its successor, so a one-node list needs one [~Node] activation and a
    three-node list needs three nested ones. *)
Lemma clear_nests_once_per_node :
  clear 0 (state_after 0 one_push) = OutOfFuel ∧
  clear 1 (state_after 0 one_push) = Ret tt LinkedList_new ∧
  clear 1 (state_after 0 three_pushes) = OutOfFuel ∧
  clear 2 (state_after 0 three_pushes) = OutOfFuel ∧
  clear 3 (state_after 0 three_pushes) = Ret tt LinkedList_new.
Proof. vm_compute. repeat split. Qed.

Lemma begin_end_empty_witness :
  reachable (state_after 3 mixed_calls) ∧
  (it_eq (begin (state_after 3 mixed_calls)) (end_ (state_after 3 mixed_calls))
     = true ↔ empty (state_after 3 mixed_calls) = true).
Proof.
  assert (H : reachable (state_after 3 mixed_calls)).
  { exists 3%nat, mixed_calls. vm_compute. reflexivity. }
  split; [exact H|]. exact (proj1 (begin_end_empty _ H)).
Defined.

Lemma push_frame_witness :
  reachable (state_after 0 three_pushes) ∧
  empty (state_after 0 three_pushes) = false ∧
  size (state_after 0 three_pushes) < INT_MAX ∧
  ∃ s' x,
    push_front 9 (state_after 0 three_pushes) = Ret tt s' ∧
    tail (this s') = tail (this (state_after 0 three_pushes)) ∧
    back (state_after 0 three_pushes) = Ret x (state_after 0 three_pushes) ∧
    back s' = Ret x s'.
Proof.
  assert (H1 : reachable (state_after 0 three_pushes)).
  { exists 0%nat, three_pushes. vm_compute. reflexivity. }
  assert (H2 : empty (state_after 0 three_pushes) = false) by reflexivity.
  assert (H3 : size (state_after 0 three_pushes) < INT_MAX) by reflexivity.
  split; [exact H1|]. split; [exact H2|]. split; [exact H3|].
  destruct (push_frame _ 9 H1 H2 H3) as [(s' & x & Hr & Ht & Hb & Hb' & _) _].
  exists s', x. repeat split; assumption.
Defined.

Lemma clear_idempotent_witness :
  reachable (state_after 1 [PushBack 1; Clear]) ∧
  empty (state_after 1 [PushBack 1; Clear]) = true ∧
  clear 0 (state_after 1 [PushBack 1; Clear]) =
    Ret tt (state_after 1 [PushBack 1; Clear]).
Proof.
  assert (H : reachable (state_after 1 [PushBack 1; Clear])).
  { exists 1%nat, [PushBack 1; Clear]. vm_compute. reflexivity. }
  assert (He : empty (state_after 1 [PushBack 1; Clear]) = true)
    by reflexivity.
  split; [exact H|]. split; [exact He|].
  exact (proj1 (proj1 (clear_idempotent _ 0 H) He)).
Defined.

(** ** Further properties of the code *)

Lemma string_app_cons c (s1 s2 : string) :
  String c s1 +:+ s2 = String c (s1 +:+ s2).
Proof. reflexivity. Qed.

Lemma string_app_nil_l (s : string) : "" +:+ s = s.
Proof. reflexivity. Qed.

Lemma string_app_assoc (s1 s2 s3 : string) :
  (s1 +:+ s2) +:+ s3 = s1 +:+ s2 +:+ s3.
Proof.
  induction s1 as [|c s1 IH]; [done|]. by rewrite !string_app_cons, IH.
Qed.

Lemma string_app_nil_r (s : string) : s +:+ "" = s.
Proof.
  induction s as [|c s IH]; [done|]. by rewrite string_app_cons, IH.
Qed.

Section Coverage.

Context {TValue : Type}.

Implicit Types (h : gmap addr (Node TValue)) (s : state TValue).
Implicit Types (cs xs ys : list (addr * TValue)) (p q : ptr) (a : addr).
Implicit Types (o : op TValue) (ops : list (op TValue)).
Implicit Types (vs : list TValue).

(** *** The observed cells of a represented state *)

Lemma chain_dllseg h p cs fuel :
  dllseg h p cs None → (length cs ≤ fuel)%nat →
  chain fuel h (first_ptr cs None) = Some cs.
Proof.
  revert p fuel. induction cs as [|[a v] cs IH]; intros p fuel Hseg Hlen.
  - by destruct fuel.
  - destruct Hseg as [Ha Hseg]. simpl in *.
    destruct fuel as [|fuel]; [lia|]. simpl. rewrite Ha. simpl.
    rewrite (IH (Some a)); [done..|lia].
Qed.

Lemma Rep_to_cells s cs : Rep s cs → to_cells s = Some cs.
Proof.
  intros [Hseg _ _ Hh _ Hc _]. unfold to_cells. rewrite Hh, Hc.
  eapply chain_dllseg; [done|lia].
Qed.

Lemma Rep_to_list s cs : Rep s cs → to_list s = Some cs.*2.
Proof. intros H. unfold to_list. by rewrite (Rep_to_cells s cs H). Qed.

Lemma reachable_to_cells s cs : reachable s → to_cells s = Some cs → Rep s cs.
Proof.
  intros [cs' HRep]%reachable_Rep Hcs.
  rewrite (Rep_to_cells s cs' HRep) in Hcs. by injection Hcs as <-.
Qed.

Lemma reachable_to_list s vs :
  reachable s → to_list s = Some vs → ∃ cs, Rep s cs ∧ cs.*2 = vs.
Proof.
  intros [cs HRep]%reachable_Rep Hvs.
  rewrite (Rep_to_list s cs HRep) in Hvs. injection Hvs as <-. eauto.
Qed.

(** X1. On a reachable list state [count] lies between 0 and [INT_MAX], so
    the conversion in [size] does not wrap: [size] is [count], and it is the
    number of values on the chain from [head]. *)
Theorem size_is_count s :
  reachable s →
  0 ≤ count (this s) ≤ INT_MAX ∧
  size s = count (this s) ∧
  ∃ vs, to_list s = Some vs ∧ size s = Z.of_nat (length vs).
Proof.
  intros [cs HRep]%reachable_Rep.
  pose proof (rep_count _ _ HRep) as Hc. pose proof (rep_range _ _ HRep) as Hr.
  rewrite (Rep_size s cs HRep), Hc. split_and!; [lia|lia|done|].
  exists cs.*2. by rewrite (Rep_to_list s cs HRep), length_fmap.
Qed.

(** X2. A reachable list state leaks no node and shares none: the allocated
    nodes are exactly the nodes on the chain from [head], each met once, and
    their number is [size]. *)
Theorem no_leak s :
  reachable s →
  ∃ cs, to_cells s = Some cs ∧ NoDup cs.*1 ∧
        dom (heap s) = list_to_set cs.*1 ∧
        Z.of_nat (base.size (heap s)) = size s.
Proof.
  intros [cs HRep]%reachable_Rep. exists cs.
  pose proof (rep_nodup _ _ HRep) as Hnd.
  pose proof (rep_dom _ _ HRep) as Hdom.
  split_and!; [by apply Rep_to_cells|done..|].
  rewrite (Rep_size s cs HRep), <-size_dom, Hdom, size_list_to_set by done.
  by rewrite length_fmap.
Qed.

Lemma effect_apply_op o cs cs' :
  effect o cs cs' → cs'.*2 = apply_op cs.*2 o.
Proof.
  destruct o as [v|v| | |]; simpl.
  - by intros [a ->].
  - intros [a ->]. by rewrite fmap_app.
  - by intros [c ->].
  - intros [c ->]. rewrite fmap_app, length_app. simpl.
    by rewrite take_app_length' by lia.
  - by intros ->.
Qed.

Lemma exec_catching_apply depth ops : ∀ s cs s',
  Rep s cs → exec_catching depth ops s = Ret tt s' →
  ∃ cs', Rep s' cs' ∧ cs'.*2 = foldl apply_op cs.*2 ops.
Proof.
  induction ops as [|o ops IH]; intros s cs s' HRep Hrun; simpl in Hrun.
  - injection Hrun as <-. eauto.
  - unfold bind, try_catch in Hrun.
    pose proof (call_Rep depth o s cs HRep) as Hcall.
    destruct (call depth o s) as [[] s1|e s1| |]; try done.
    + destruct Hcall as (cs1 & HRep1 & Heff).
      destruct (IH s1 cs1 s' HRep1 Hrun) as (cs' & HRep' & Hvs).
      exists cs'. split; [done|]. simpl.
      by rewrite <-(effect_apply_op o cs cs1).
    + destruct Hcall as (-> & -> & Hpop).
      destruct (IH s [] s' HRep Hrun) as (cs' & HRep' & Hvs).
      exists cs'. split; [done|]. by destruct o.
Qed.

(** X3. After any sequence of guarded calls on a new list, the values from
    head to tail are what the sequence makes of the empty sequence:
    [push_front] prepends, [push_back] appends, [pop_front] drops the first
    value, [pop_back] the last, [clear] all, and a pop that raised none. *)
Theorem calls_refine_sequence depth ops s :
  exec_catching depth ops LinkedList_new = Ret tt s →
  to_list s = Some (foldl apply_op [] ops).
Proof.
  intros Hrun.
  destruct (exec_catching_apply depth ops _ [] s Rep_new Hrun)
    as (cs & HRep & Hvs).
  by rewrite (Rep_to_list s cs HRep), Hvs.
Qed.

(** X4. On a reachable list whose first value is [v], [front] returns [v]
    without changing the list, and [pop_front] returns the same [v], leaves
    the remaining values in order, lowers [size] by one and keeps the
    invariants. *)
Theorem pop_front_takes_front s v vs :
  reachable s → to_list s = Some (v :: vs) →
  front s = Ret v s ∧
  ∃ s', pop_front s = Ret v s' ∧ to_list s' = Some vs ∧
        size s' = size s - 1 ∧ Invariant s'.
Proof.
  intros Hreach Hvs.
  destruct (reachable_to_list s _ Hreach Hvs) as (cs & HRep & Hcs).
  destruct cs as [|[a w] cs]; simplify_eq/=.
  split; [by eapply front_cons|].
  destruct (pop_front_cons s _ _ cs HRep) as (s' & Hrun & HRep').
  exists s'. split_and!; [done|by apply Rep_to_list| |by eapply Rep_Invariant].
  rewrite (Rep_size s' cs HRep'), (Rep_size s _ HRep). simpl. lia.
Qed.

(** X5. On a reachable list whose last value is [v], [back] returns [v]
    without changing the list, and [pop_back] returns the same [v], leaves
    the values before it in order, lowers [size] by one and keeps the
    invariants. *)
Theorem pop_back_takes_back s vs v :
  reachable s → to_list s = Some (vs ++ [v]) →
  back s = Ret v s ∧
  ∃ s', pop_back s = Ret v s' ∧ to_list s' = Some vs ∧
        size s' = size s - 1 ∧ Invariant s'.
Proof.
  intros Hreach Hvs.
  destruct (reachable_to_list s _ Hreach Hvs) as (cs & HRep & Hcs).
  apply fmap_app_inv in Hcs as (cs0 & cl & -> & Hcl & ->).
  destruct cl as [|[a w] [|? ?]]; simplify_eq/=.
  split; [by eapply back_snoc|].
  destruct (pop_back_snoc s cs0 _ _ HRep) as (s' & Hrun & HRep').
  exists s'. split_and!; [done|by apply Rep_to_list| |by eapply Rep_Invariant].
  rewrite (Rep_size s' cs0 HRep'), (Rep_size s _ HRep), length_app. simpl. lia.
Qed.

Lemma pop_front_n_Rep cs : ∀ s,
  Rep s cs → pop_front_n (length cs) s = Ret cs.*2 LinkedList_new.
Proof.
  induction cs as [|[a v] cs IH]; intros s HRep; simpl.
  - by apply Rep_nil_inv in HRep as ->.
  - destruct (pop_front_cons s a v cs HRep) as (s' & Hrun & HRep').
    unfold bind. by rewrite Hrun, (IH s' HRep').
Qed.

Lemma pop_back_n_Rep cs : ∀ s,
  Rep s cs → pop_back_n (length cs) s = Ret (rev cs.*2) LinkedList_new.
Proof.
  induction cs as [|[a v] cs IH] using rev_ind; intros s HRep.
  - by apply Rep_nil_inv in HRep as ->.
  - destruct (pop_back_snoc s cs a v HRep) as (s' & Hrun & HRep').
    rewrite length_app, Nat.add_1_r, fmap_app, rev_app_distr. simpl.
    unfold bind. by rewrite Hrun, (IH s' HRep').
Qed.

Lemma pop_front_n_over cs : ∀ s,
  Rep s cs →
  pop_front_n (S (length cs)) s =
    Throw (runtime_error "cannot remove from empty list") LinkedList_new.
Proof.
  induction cs as [|[a v] cs IH]; intros s HRep.
  - by apply Rep_nil_inv in HRep as ->.
  - destruct (pop_front_cons s a v cs HRep) as (s' & Hrun & HRep').
    change (pop_front_n (S (length ((a, v) :: cs))) s)
      with (bind pop_front (λ v, vs <- pop_front_n (S (length cs)) ;;
                                  ret (v :: vs)) s).
    unfold bind at 1. rewrite Hrun. unfold bind. by rewrite (IH s' HRep').
Qed.

Lemma pop_back_n_over cs : ∀ s,
  Rep s cs →
  pop_back_n (S (length cs)) s =
    Throw (runtime_error "cannot remove from empty list") LinkedList_new.
Proof.
  induction cs as [|[a v] cs IH] using rev_ind; intros s HRep.
  - by apply Rep_nil_inv in HRep as ->.
  - destruct (pop_back_snoc s cs a v HRep) as (s' & Hrun & HRep').
    rewrite length_app, Nat.add_1_r.
    change (pop_back_n (S (S (length cs))) s)
      with (bind pop_back (λ v, vs <- pop_back_n (S (length cs)) ;;
                                 ret (v :: vs)) s).
    unfold bind at 1. rewrite Hrun. unfold bind. by rewrite (IH s' HRep').
Qed.

(** X6. Popping from the front as many times as a reachable list has values
    returns the values from head to tail and leaves the newly constructed
    state; one more pop raises, the list being empty. *)
Theorem drain_front s vs :
  reachable s → to_list s = Some vs →
  pop_front_n (length vs) s = Ret vs LinkedList_new ∧
  pop_front_n (S (length vs)) s =
    Throw (runtime_error "cannot remove from empty list") LinkedList_new.
Proof.
  intros Hreach Hvs.
  destruct (reachable_to_list s _ Hreach Hvs) as (cs & HRep & <-).
  rewrite length_fmap. split; [by apply pop_front_n_Rep|by apply pop_front_n_over].
Qed.

(** X7. Popping from the back as many times as a reachable list has values
    returns the values from tail to head and leaves the newly constructed
    state; one more pop raises, the list being empty. *)
Theorem drain_back s vs :
  reachable s → to_list s = Some vs →
  pop_back_n (length vs) s = Ret (rev vs) LinkedList_new ∧
  pop_back_n (S (length vs)) s =
    Throw (runtime_error "cannot remove from empty list") LinkedList_new.
Proof.
  intros Hreach Hvs.
  destruct (reachable_to_list s _ Hreach Hvs) as (cs & HRep & <-).
  rewrite length_fmap. split; [by apply pop_back_n_Rep|by apply pop_back_n_over].
Qed.

(** X12. On a reachable empty list [front] and [back] throw
    [runtime_error("list is empty")] and [pop_front] and [pop_back] throw
    [runtime_error("cannot remove from empty list")], each leaving the
    state as it was. *)
Theorem empty_list_exceptions s :
  reachable s → size s = 0 →
  front s = Throw (runtime_error "list is empty") s ∧
  back s = Throw (runtime_error "list is empty") s ∧
  pop_front s = Throw (runtime_error "cannot remove from empty list") s ∧
  pop_back s = Throw (runtime_error "cannot remove from empty list") s.
Proof.
  intros [cs HRep]%reachable_Rep ->%(Rep_size_0 s cs HRep).
  split_and!.
  - by apply front_nil.
  - by apply back_nil.
  - by apply pop_front_nil.
  - by apply pop_back_nil.
Qed.

(** X13. On a reachable list state no call dereferences a null or released
    pointer or releases a node twice: [front] and [back] return or throw,
    and so does every mutator, provided a push finds [size] below
    [INT_MAX] and [clear] finds room for [size] nested destructor
    activations. *)
Theorem calls_well_defined s :
  reachable s →
  well_defined (front s) ∧ well_defined (back s) ∧
  ∀ depth o,
    (is_push o = true → size s < INT_MAX) →
    (o = Clear → size s ≤ Z.of_nat depth) →
    well_defined (call depth o s).
Proof.
  intros [cs HRep]%reachable_Rep. split_and!.
  - destruct cs as [|[a v] cs].
    + by rewrite (front_nil s HRep).
    + by rewrite (front_cons s a v cs HRep).
  - destruct cs as [|[a v] cs _] using rev_ind.
    + by rewrite (back_nil s HRep).
    + by rewrite (back_snoc s cs a v HRep).
  - intros depth o Hpush Hclear.
    rewrite (Rep_size s cs HRep) in Hpush, Hclear.
    pose proof (call_Rep depth o s cs HRep) as Hcall.
    destruct (call depth o s) as [[] s1|e s1| |]; simpl; try done.
    + destruct Hcall as [Ho Hmax]. specialize (Hpush Ho). lia.
    + destruct Hcall as [Ho Hlt]. specialize (Hclear Ho). lia.
Qed.

Lemma walk_back_dllseg h cs : ∀ q fuel,
  dllseg h None cs q → (length cs ≤ fuel)%nat →
  walk_back fuel h (last_ptr cs None) = Some (rev cs.*1).
Proof.
  induction cs as [|[a v] cs IH] using rev_ind; intros q fuel Hseg Hlen.
  - by destruct fuel.
  - apply dllseg_app in Hseg as [Hseg [Ha _]]. simpl in Ha, Hseg.
    rewrite length_app in Hlen. simpl in Hlen.
    rewrite last_ptr_snoc, fmap_app, rev_app_distr. simpl.
    destruct fuel as [|fuel]; [lia|]. simpl. rewrite Ha. simpl.
    rewrite (IH (Some a)); [done..|lia].
Qed.

(** X14. On a reachable list state the walk from [tail] along [prev] visits
    the nodes of the walk from [head] along [next] in reverse order, and the
    head node has no predecessor. *)
Theorem backward_walk_mirrors s :
  reachable s →
  ∃ ps,
    walk (Z.to_nat (count (this s))) (heap s) (head (this s)) = Some ps ∧
    walk_back (Z.to_nat (count (this s))) (heap s) (tail (this s)) =
      Some (rev ps) ∧
    (∀ a, head (this s) = Some a → prev <$> heap s !! a = Some None).
Proof.
  intros [cs HRep]%reachable_Rep. exists cs.*1.
  destruct HRep as [Hseg _ _ Hh Ht Hc _]. rewrite Hh, Ht, Hc, Nat2Z.id.
  split_and!.
  - by eapply walk_dllseg.
  - by eapply walk_back_dllseg.
  - intros a Ha. destruct cs as [|[b v] cs]; simplify_eq/=.
    destruct Hseg as [Hb _]. by rewrite Hb.
Qed.

(** X15. Any sequence of at most [INT_MAX] pushes on a new list returns: it
    produces a list holding the pushed values in push order, whose [size] is
    the number of pushes. *)
Theorem pushes_return depth ops :
  forallb is_push ops = true → Z.of_nat (length ops) ≤ INT_MAX →
  ∃ s, exec depth ops LinkedList_new = Ret tt s ∧
       to_list s = Some (push_order ops []) ∧
       size s = Z.of_nat (length ops).
Proof.
  intros Hops Hlen.
  destruct (exec_pushes depth ops LinkedList_new [] Rep_new Hops)
    as (s & cs & Hrun & HRep & Hvs); [simpl; lia|].
  exists s. split_and!; [done|by rewrite (Rep_to_list s cs HRep), Hvs|].
  destruct (exec_pushes_inv depth ops _ [] s Rep_new Hops Hrun)
    as (cs' & HRep' & _ & Hlen').
  rewrite (Rep_size s cs' HRep'), Hlen'. simpl. lia.
Qed.


(** X8. [addAfter] on a node anywhere in a reachable list with room for one
    more node links a newly allocated node holding the value right after
    that node, leaves the other cells in place, raises [size] by one and
    keeps the invariants. *)
Theorem addAfter_inserts_after s xs a va ys v :
  reachable s → to_cells s = Some (xs ++ (a, va) :: ys) →
  size s < INT_MAX →
  ∃ s' b,
    addAfter (Some a) v s = Ret tt s' ∧
    to_cells s' = Some (xs ++ (a, va) :: (b, v) :: ys) ∧
    heap s !! b = None ∧
    size s' = size s + 1 ∧ Invariant s'.
Proof.
  intros Hreach Hcs Hlt. pose proof (reachable_to_cells s _ Hreach Hcs) as HRep.
  rewrite (Rep_size s _ HRep) in Hlt.
  destruct (addAfter_spec s xs a va ys v HRep) as (s' & Hrun & HRep').
  rewrite (rep_count _ _ HRep), decide_True in Hrun by done.
  specialize (HRep' ltac:(by rewrite (rep_count _ _ HRep))).
  exists s', (fresh (dom (heap s))). split_and!.
  - done.
  - by apply Rep_to_cells.
  - apply not_elem_of_dom, is_fresh.
  - rewrite (Rep_size s' _ HRep'), (Rep_size s _ HRep), !length_app. simpl. lia.
  - by eapply Rep_Invariant.
Qed.

(** X9. [addBefore] on a node anywhere in a reachable list with room for
    one more node links a newly allocated node holding the value right
    before that node, leaves the other cells in place, raises [size] by one
    and keeps the invariants. *)
Theorem addBefore_inserts_before s xs a va ys v :
  reachable s → to_cells s = Some (xs ++ (a, va) :: ys) →
  size s < INT_MAX →
  ∃ s' b,
    addBefore (Some a) v s = Ret tt s' ∧
    to_cells s' = Some (xs ++ (b, v) :: (a, va) :: ys) ∧
    heap s !! b = None ∧
    size s' = size s + 1 ∧ Invariant s'.
Proof.
  intros Hreach Hcs Hlt. pose proof (reachable_to_cells s _ Hreach Hcs) as HRep.
  rewrite (Rep_size s _ HRep) in Hlt.
  destruct (addBefore_spec s xs a va ys v HRep) as (s' & Hrun & HRep').
  rewrite (rep_count _ _ HRep), decide_True in Hrun by done.
  specialize (HRep' ltac:(by rewrite (rep_count _ _ HRep))).
  exists s', (fresh (dom (heap s))). split_and!.
  - done.
  - by apply Rep_to_cells.
  - apply not_elem_of_dom, is_fresh.
  - rewrite (Rep_size s' _ HRep'), (Rep_size s _ HRep), !length_app. simpl. lia.
  - by eapply Rep_Invariant.
Qed.

(** X10. [removeNode] on a node anywhere in a reachable list returns its
    value, unlinks it leaving the other cells in order, releases its
    storage, lowers [size] by one and keeps the invariants. *)
Theorem removeNode_unlinks s xs a va ys :
  reachable s → to_cells s = Some (xs ++ (a, va) :: ys) →
  ∃ s',
    removeNode (Some a) s = Ret va s' ∧
    to_cells s' = Some (xs ++ ys) ∧
    heap s' !! a = None ∧
    size s' = size s - 1 ∧ Invariant s'.
Proof.
  intros Hreach Hcs. pose proof (reachable_to_cells s _ Hreach Hcs) as HRep.
  destruct (removeNode_spec s xs a va ys HRep) as (s' & Hrun & HRep').
  exists s'. split_and!.
  - done.
  - by apply Rep_to_cells.
  - apply not_elem_of_dom. rewrite (rep_dom _ _ HRep').
    pose proof (rep_nodup _ _ HRep) as Hnd.
    rewrite fmap_app, fmap_cons in Hnd.
    apply NoDup_mid in Hnd as (Hax & Hay & _).
    rewrite fmap_app, elem_of_list_to_set, elem_of_app. tauto.
  - rewrite (Rep_size s' _ HRep'), (Rep_size s _ HRep), !length_app. simpl. lia.
  - by eapply Rep_Invariant.
Qed.


(** X16. On any reachable list state the forward traversal from [begin] to
    [end_] takes as many iterations as there are values and visits them
    from head to tail, and the backward traversal from [rbegin] to [rend]
    visits them from tail to head. *)
Theorem traversal_yields_list s vs :
  reachable s → to_list s = Some vs →
  ∀ fuel,
    forward_traversal fuel s =
      (if decide (length vs ≤ fuel)%nat then Ret vs s else OutOfFuel) ∧
    backward_traversal fuel s =
      (if decide (length vs ≤ fuel)%nat then Ret (rev vs) s else OutOfFuel).
Proof.
  intros Hreach Hvs fuel.
  destruct (reachable_to_list s _ Hreach Hvs) as (cs & HRep & <-).
  rewrite length_fmap.
  by rewrite (Rep_forward s cs fuel HRep), (Rep_backward s cs fuel HRep).
Qed.

End Coverage.

(** *** Rendering *)

Section RenderingProperties.

Context {TValue : Type} (show : TValue → string).

Implicit Types (h : gmap addr (Node TValue)) (s : state TValue).
Implicit Types (cs xs ys : list (addr * TValue)) (p q : ptr) (a : addr).
Implicit Types (vs : list TValue).

Lemma deref_eq h l a n :
  h !! a = Some n → deref (Some a) (mkState h l) = Ret n (mkState h l).
Proof. intros H. unfold deref. simpl. by rewrite H. Qed.

Lemma get_next_eq h l a n :
  h !! a = Some n →
  get_next (Some a) (mkState h l) = Ret (next n) (mkState h l).
Proof. intros H. unfold get_next, bind. by rewrite (deref_eq h l a n H). Qed.

Lemma toString_nodes_spec cs : ∀ h l p fuel ss,
  dllseg h p cs None →
  toString_nodes show fuel (first_ptr cs None) ss (mkState h l) =
    if decide (length cs ≤ fuel)%nat
    then Ret (ss +:+ joined show cs.*2) (mkState h l)
    else OutOfFuel.
Proof.
  induction cs as [|[a v] cs IH]; intros h l p fuel ss Hseg.
  - rewrite decide_True by (simpl; lia). destruct fuel; simpl;
      by rewrite string_app_nil_r.
  - destruct Hseg as [Ha Hseg]. simpl in Ha, Hseg.
    destruct fuel as [|fuel]; [by rewrite decide_False by (simpl; lia)|].
    cbn [toString_nodes first_ptr fst].
    erewrite bind_Ret by (by apply deref_eq).
    erewrite bind_Ret by (by apply get_next_eq).
    erewrite bind_Ret by (by apply get_next_eq).
    cbn [next data]. rewrite (IH h l (Some a) fuel _ Hseg).
    destruct (decide (length cs ≤ fuel)%nat).
    + rewrite decide_True by (simpl; lia). f_equal.
      destruct cs as [|[b w] cs]; simpl.
      * by rewrite string_app_nil_r.
      * unfold Node_toString. simpl. by rewrite !string_app_assoc.
    + by rewrite decide_False by (simpl; lia).
Qed.

Lemma toString_index_spec xs : ∀ h l p t v ys q fuel k,
  dllseg h p (xs ++ (t, v) :: ys) q → t ∉ xs.*1 →
  INT_MIN ≤ k → k + Z.of_nat (length xs) ≤ INT_MAX →
  toString_index fuel (Some t) (first_ptr (xs ++ (t, v) :: ys) q) k
    (mkState h l) =
    if decide (length xs ≤ fuel)%nat
    then Ret (k + Z.of_nat (length xs)) (mkState h l)
    else OutOfFuel.
Proof.
  induction xs as [|[a va] xs IH]; intros h l p t v ys q fuel k Hseg Ht Hk Hmax.
  - rewrite decide_True by (simpl; lia). simpl.
    destruct fuel; simpl; rewrite decide_True by done;
      unfold ret; f_equal; lia.
  - destruct Hseg as [Ha Hseg]. simpl in Ha, Hseg.
    rewrite fmap_cons in Ht. apply not_elem_of_cons in Ht as [Hta Ht].
    simpl in Hta, Hmax.
    destruct fuel as [|fuel].
    + rewrite (decide_False (P := (length ((a, va) :: xs) ≤ 0)%nat))
        by (simpl; lia).
      cbn [toString_index first_ptr fst app].
      by rewrite decide_False by congruence.
    + cbn [toString_index first_ptr fst app].
      rewrite decide_False by congruence.
      erewrite bind_Ret
        by (unfold int_result; rewrite decide_True by lia; reflexivity).
      erewrite bind_Ret by (by apply get_next_eq).
      cbn [next].
      rewrite (IH h l (Some a) t v ys q fuel (k + 1) Hseg Ht) by lia.
      destruct (decide (length xs ≤ fuel)%nat).
      * rewrite decide_True by (simpl; lia). f_equal.
        rewrite length_cons. lia.
      * by rewrite decide_False by (simpl; lia).
Qed.

Lemma toString_index_self fuel p k s :
  toString_index fuel p p k s = Ret k s.
Proof.
  destruct p as [a|], fuel; simpl; try done; by rewrite decide_True.
Qed.

Lemma fill_spaces (n : nat) :
  Z.of_nat n * 6 ≤ INT_MAX →
  fill ((Z.of_nat n - 0) * 6) = spaces (6 * n).
Proof.
  intros Hn. unfold fill. f_equal.
  rewrite Z.mod_small; unfold INT_MAX, SIZE_WIDTH in *; lia.
Qed.

Lemma toString_Rep fuel s cs :
  Rep s cs → (length cs ≤ fuel)%nat →
  toString show fuel s =
    if decide (6 * (Z.of_nat (length cs) - 1) ≤ INT_MAX)
    then Ret (rendering show cs.*2) s
    else Undef.
Proof.
  intros [Hseg Hnd _ Hh Ht _ Hr] Hfuel. destruct s as [h [hd tl n]].
  simpl in *. subst hd tl. unfold toString.
  erewrite bind_Ret by reflexivity. cbn [head this].
  erewrite bind_Ret
    by (rewrite (toString_nodes_spec cs h _ None fuel "" Hseg),
          decide_True by done; reflexivity).
  erewrite bind_Ret by reflexivity.
  erewrite bind_Ret by reflexivity. cbn [head this].
  erewrite bind_Ret by apply toString_index_self.
  erewrite bind_Ret by reflexivity.
  erewrite bind_Ret by reflexivity. cbn [head tail this].
  destruct cs as [|[t v] xs _] using rev_ind.
  - simpl. erewrite bind_Ret by apply toString_index_self. reflexivity.
  - rewrite last_ptr_snoc. rewrite length_app in *. simpl in Hfuel, Hr.
    rewrite fmap_app in Hnd. apply NoDup_app in Hnd as (_ & Hnd & _).
    assert (Htx : t ∉ xs.*1).
    { intros Hin. apply (Hnd _ Hin). left. }
    erewrite bind_Ret
      by (rewrite (toString_index_spec xs h _ None t v [] None fuel 0 Hseg Htx)
            by (unfold INT_MIN, INT_MAX in *; lia);
          rewrite decide_True by lia; reflexivity).
    rewrite (decide_False (P := 0 > 0)) by lia.
    erewrite bind_Ret by reflexivity.
    rewrite Z.add_0_l.
    assert (Hlen : (length (xs ++ [(t, v)]).*2 - 1)%nat = length xs).
    { rewrite length_fmap, length_app. simpl. lia. }
    unfold rendering. rewrite Hlen.
    change (length [(t, v)]) with 1%nat.
    destruct (decide (Z.of_nat (length xs) > 0)) as [Hpos|Hzero].
    + destruct (decide (6 * (Z.of_nat (length xs + 1) - 1) ≤ INT_MAX))
        as [Hok|Hbig].
      * erewrite bind_Ret.
        2:{ erewrite bind_Ret
              by (unfold int_result; rewrite decide_True
                    by (unfold INT_MIN, INT_MAX in *; lia); reflexivity).
            erewrite bind_Ret
              by (unfold int_result; rewrite decide_True
                    by (unfold INT_MIN, INT_MAX in *; lia); reflexivity).
            reflexivity. }
        unfold ret. f_equal.
        rewrite fill_spaces by lia.
        by rewrite string_app_nil_l, !string_app_assoc.
      * unfold bind, int_result.
        rewrite decide_True by (unfold INT_MIN, INT_MAX in *; lia).
        by rewrite decide_False by (unfold INT_MIN, INT_MAX in *; lia).
    + assert (length xs = 0%nat) as Hxs by lia.
      rewrite Hxs. rewrite decide_True by (unfold INT_MAX; lia).
      erewrite bind_Ret by reflexivity. unfold ret. f_equal.
      by rewrite string_app_nil_l, !string_app_assoc.
Qed.

(** X11. [toString] on a reachable list, given enough iterations, leaves the
    state unchanged and returns the bracketed values joined by the link
    marker, a newline, the head marker and, six columns further per node
    after the first, the tail marker; when six times the number of nodes
    after the first exceeds [INT_MAX] the padding width overflows [int] and
    the call is undefined. *)
Theorem toString_renders fuel s vs :
  reachable s → to_list s = Some vs → (length vs ≤ fuel)%nat →
  (6 * (Z.of_nat (length vs) - 1) ≤ INT_MAX →
   toString show fuel s = Ret (rendering show vs) s) ∧
  (INT_MAX < 6 * (Z.of_nat (length vs) - 1) →
   toString show fuel s = Undef).
Proof.
  intros Hreach Hvs Hfuel.
  destruct (reachable_to_list s _ Hreach Hvs) as (cs & HRep & <-).
  rewrite length_fmap in *. rewrite (toString_Rep fuel s cs HRep Hfuel).
  split; intros H; [by rewrite decide_True|by rewrite decide_False by lia].
Qed.

End RenderingProperties.

(** ** The further properties at concrete list states *)

Lemma size_is_count_witness :
  reachable (state_after 3 mixed_calls) ∧
  size (state_after 3 mixed_calls) = count (this (state_after 3 mixed_calls)).
Proof.
  assert (H : reachable (state_after 3 mixed_calls)).
  { exists 3%nat, mixed_calls. vm_compute. reflexivity. }
  split; [exact H|]. exact (proj1 (proj2 (size_is_count _ H))).
Defined.

Lemma no_leak_witness :
  reachable (state_after 3 mixed_calls) ∧
  Z.of_nat (base.size (heap (state_after 3 mixed_calls))) =
    size (state_after 3 mixed_calls).
Proof.
  assert (H : reachable (state_after 3 mixed_calls)).
  { exists 3%nat, mixed_calls. vm_compute. reflexivity. }
  split; [exact H|].
  destruct (no_leak _ H) as (cs & _ & _ & _ & Hsize). exact Hsize.
Defined.

Lemma calls_refine_sequence_witness :
  exec_catching 3 mixed_calls LinkedList_new =
    Ret tt (state_after 3 mixed_calls) ∧
  to_list (state_after 3 mixed_calls) = Some [6; 5].
Proof.
  assert (H : exec_catching 3 mixed_calls LinkedList_new =
              Ret tt (state_after 3 mixed_calls))
    by (vm_compute; reflexivity).
  split; [exact H|]. exact (calls_refine_sequence 3 mixed_calls _ H).
Defined.

Lemma pop_front_takes_front_witness :
  reachable (state_after 0 three_pushes) ∧
  to_list (state_after 0 three_pushes) = Some (1 :: [2; 3]) ∧
  front (state_after 0 three_pushes) = Ret 1 (state_after 0 three_pushes).
Proof.
  assert (H1 : reachable (state_after 0 three_pushes)).
  { exists 0%nat, three_pushes. vm_compute. reflexivity. }
  assert (H2 : to_list (state_after 0 three_pushes) = Some (1 :: [2; 3]))
    by (vm_compute; reflexivity).
  split; [exact H1|]. split; [exact H2|].
  exact (proj1 (pop_front_takes_front _ 1 [2; 3] H1 H2)).
Defined.

Lemma pop_back_takes_back_witness :
  reachable (state_after 0 three_pushes) ∧
  to_list (state_after 0 three_pushes) = Some ([1; 2] ++ [3]) ∧
  back (state_after 0 three_pushes) = Ret 3 (state_after 0 three_pushes).
Proof.
  assert (H1 : reachable (state_after 0 three_pushes)).
  { exists 0%nat, three_pushes. vm_compute. reflexivity. }
  assert (H2 : to_list (state_after 0 three_pushes) = Some ([1; 2] ++ [3]))
    by (vm_compute; reflexivity).
  split; [exact H1|]. split; [exact H2|].
  exact (proj1 (pop_back_takes_back _ [1; 2] 3 H1 H2)).
Defined.

Lemma drain_front_witness :
  reachable (state_after 0 three_pushes) ∧
  to_list (state_after 0 three_pushes) = Some [1; 2; 3] ∧
  pop_front_n 3 (state_after 0 three_pushes) = Ret [1; 2; 3] LinkedList_new.
Proof.
  assert (H1 : reachable (state_after 0 three_pushes)).
  { exists 0%nat, three_pushes. vm_compute. reflexivity. }
  assert (H2 : to_list (state_after 0 three_pushes) = Some [1; 2; 3])
    by (vm_compute; reflexivity).
  split; [exact H1|]. split; [exact H2|].
  exact (proj1 (drain_front _ [1; 2; 3] H1 H2)).
Defined.

Lemma drain_back_witness :
  reachable (state_after 0 three_pushes) ∧
  to_list (state_after 0 three_pushes) = Some [1; 2; 3] ∧
  pop_back_n 3 (state_after 0 three_pushes) = Ret [3; 2; 1] LinkedList_new.
Proof.
  assert (H1 : reachable (state_after 0 three_pushes)).
  { exists 0%nat, three_pushes. vm_compute. reflexivity. }
  assert (H2 : to_list (state_after 0 three_pushes) = Some [1; 2; 3])
    by (vm_compute; reflexivity).
  split; [exact H1|]. split; [exact H2|].
  exact (proj1 (drain_back _ [1; 2; 3] H1 H2)).
Defined.

Lemma addAfter_inserts_after_witness :
  reachable (state_after 0 three_pushes) ∧
  to_cells (state_after 0 three_pushes) =
    Some ([(1%positive, 1)] ++ (2%positive, 2) :: [(3%positive, 3)]) ∧
  size (state_after 0 three_pushes) < INT_MAX ∧
  ∃ s' b,
    addAfter (Some 2%positive) 7 (state_after 0 three_pushes) = Ret tt s' ∧
    to_cells s' =
      Some ([(1%positive, 1)] ++ (2%positive, 2) :: (b, 7) ::
            [(3%positive, 3)]).
Proof.
  assert (H1 : reachable (state_after 0 three_pushes)).
  { exists 0%nat, three_pushes. vm_compute. reflexivity. }
  assert (H2 : to_cells (state_after 0 three_pushes) =
    Some ([(1%positive, 1)] ++ (2%positive, 2) :: [(3%positive, 3)]))
    by (vm_compute; reflexivity).
  assert (H3 : size (state_after 0 three_pushes) < INT_MAX) by reflexivity.
  split; [exact H1|]. split; [exact H2|]. split; [exact H3|].
  destruct (addAfter_inserts_after _ _ _ _ _ 7 H1 H2 H3)
    as (s' & b & Hrun & Hcells & _).
  exists s', b. split; assumption.
Defined.

Lemma addBefore_inserts_before_witness :
  reachable (state_after 0 three_pushes) ∧
  to_cells (state_after 0 three_pushes) =
    Some ([(1%positive, 1)] ++ (2%positive, 2) :: [(3%positive, 3)]) ∧
  size (state_after 0 three_pushes) < INT_MAX ∧
  ∃ s' b,
    addBefore (Some 2%positive) 7 (state_after 0 three_pushes) = Ret tt s' ∧
    to_cells s' =
      Some ([(1%positive, 1)] ++ (b, 7) :: (2%positive, 2) ::
            [(3%positive, 3)]).
Proof.
  assert (H1 : reachable (state_after 0 three_pushes)).
  { exists 0%nat, three_pushes. vm_compute. reflexivity. }
  assert (H2 : to_cells (state_after 0 three_pushes) =
    Some ([(1%positive, 1)] ++ (2%positive, 2) :: [(3%positive, 3)]))
    by (vm_compute; reflexivity).
  assert (H3 : size (state_after 0 three_pushes) < INT_MAX) by reflexivity.
  split; [exact H1|]. split; [exact H2|]. split; [exact H3|].
  destruct (addBefore_inserts_before _ _ _ _ _ 7 H1 H2 H3)
    as (s' & b & Hrun & Hcells & _).
  exists s', b. split; assumption.
Defined.

Lemma removeNode_unlinks_witness :
  reachable (state_after 0 three_pushes) ∧
  to_cells (state_after 0 three_pushes) =
    Some ([(1%positive, 1)] ++ (2%positive, 2) :: [(3%positive, 3)]) ∧
  ∃ s',
    removeNode (Some 2%positive) (state_after 0 three_pushes) = Ret 2 s' ∧
    to_cells s' = Some ([(1%positive, 1)] ++ [(3%positive, 3)]).
Proof.
  assert (H1 : reachable (state_after 0 three_pushes)).
  { exists 0%nat, three_pushes. vm_compute. reflexivity. }
  assert (H2 : to_cells (state_after 0 three_pushes) =
    Some ([(1%positive, 1)] ++ (2%positive, 2) :: [(3%positive, 3)]))
    by (vm_compute; reflexivity).
  split; [exact H1|]. split; [exact H2|].
  destruct (removeNode_unlinks _ _ _ _ _ H1 H2) as (s' & Hrun & Hcells & _).
  exists s'. split; assumption.
Defined.

Lemma toString_renders_witness :
  reachable (state_after 0 three_pushes) ∧
  to_list (state_after 0 three_pushes) = Some [1; 2; 3] ∧
  (length [1; 2; 3] ≤ 3)%nat ∧
  6 * (Z.of_nat (length [1; 2; 3]) - 1) ≤ INT_MAX ∧
  toString show_digit 3 (state_after 0 three_pushes) =
    Ret (rendering show_digit [1; 2; 3]) (state_after 0 three_pushes).
Proof.
  assert (H1 : reachable (state_after 0 three_pushes)).
  { exists 0%nat, three_pushes. vm_compute. reflexivity. }
  assert (H2 : to_list (state_after 0 three_pushes) = Some [1; 2; 3])
    by (vm_compute; reflexivity).
  assert (H3 : (length [1; 2; 3] ≤ 3)%nat) by (simpl; lia).
  assert (H4 : 6 * (Z.of_nat (length [1; 2; 3]) - 1) ≤ INT_MAX)
    by (vm_compute; discriminate).
  split; [exact H1|]. split; [exact H2|]. split; [exact H3|].
  split; [exact H4|].
  exact (proj1 (toString_renders show_digit 3 _ [1; 2; 3] H1 H2 H3) H4).
Defined.

Lemma empty_list_exceptions_witness :
  reachable (state_after 1 [PushBack 1; Clear]) ∧
  size (state_after 1 [PushBack 1; Clear]) = 0 ∧
  back (state_after 1 [PushBack 1; Clear]) =
    Throw (runtime_error "list is empty") (state_after 1 [PushBack 1; Clear]).
Proof.
  assert (H1 : reachable (state_after 1 [PushBack 1; Clear])).
  { exists 1%nat, [PushBack 1; Clear]. vm_compute. reflexivity. }
  assert (H2 : size (state_after 1 [PushBack 1; Clear]) = 0) by reflexivity.
  split; [exact H1|]. split; [exact H2|].
  exact (proj1 (proj2 (empty_list_exceptions _ H1 H2))).
Defined.

Lemma calls_well_defined_witness :
  reachable (state_after 0 three_pushes) ∧
  size (state_after 0 three_pushes) < INT_MAX ∧
  well_defined (call 0 (PushBack 4) (state_after 0 three_pushes)).
Proof.
  assert (H1 : reachable (state_after 0 three_pushes)).
  { exists 0%nat, three_pushes. vm_compute. reflexivity. }
  assert (H2 : size (state_after 0 three_pushes) < INT_MAX) by reflexivity.
  split; [exact H1|]. split; [exact H2|].
  apply (proj2 (proj2 (calls_well_defined _ H1)) 0%nat (PushBack 4)).
  - intros _. exact H2.
  - intros Ho. discriminate Ho.
Defined.

Lemma backward_walk_mirrors_witness :
  reachable (state_after 0 three_pushes) ∧
  walk_back 3 (heap (state_after 0 three_pushes))
    (tail (this (state_after 0 three_pushes))) =
    Some [3%positive; 2%positive; 1%positive].
Proof.
  assert (H1 : reachable (state_after 0 three_pushes)).
  { exists 0%nat, three_pushes. vm_compute. reflexivity. }
  split; [exact H1|].
  destruct (backward_walk_mirrors _ H1) as (ps & Hfwd & Hback & _).
  assert (Hps : ps = [1%positive; 2%positive; 3%positive]).
  { vm_compute in Hfwd. by injection Hfwd as <-. }
  rewrite Hps in Hback. exact Hback.
Defined.

Lemma pushes_return_witness :
  forallb is_push front_and_back_pushes = true ∧
  Z.of_nat (length front_and_back_pushes) ≤ INT_MAX ∧
  ∃ s, exec 0 front_and_back_pushes LinkedList_new = Ret tt s ∧
       to_list s = Some [4; 2; 1; 3].
Proof.
  assert (H1 : forallb is_push front_and_back_pushes = true) by reflexivity.
  assert (H2 : Z.of_nat (length front_and_back_pushes) ≤ INT_MAX)
    by (vm_compute; discriminate).
  split; [exact H1|]. split; [exact H2|].
  destruct (pushes_return 0 front_and_back_pushes H1 H2)
    as (s & Hrun & Hvs & _).
  exists s. split; assumption.
Defined.

Lemma traversal_yields_list_witness :
  reachable (state_after 3 mixed_calls) ∧
  to_list (state_after 3 mixed_calls) = Some [6; 5] ∧
  forward_traversal 2 (state_after 3 mixed_calls) =
    Ret [6; 5] (state_after 3 mixed_calls) ∧
  backward_traversal 2 (state_after 3 mixed_calls) =
    Ret [5; 6] (state_after 3 mixed_calls).
Proof.
  assert (H1 : reachable (state_after 3 mixed_calls)).
  { exists 3%nat, mixed_calls. vm_compute. reflexivity. }
  assert (H2 : to_list (state_after 3 mixed_calls) = Some [6; 5])
    by (vm_compute; reflexivity).
  split; [exact H1|]. split; [exact H2|].
  exact (traversal_yields_list _ [6; 5] H1 H2 2%nat).
Defined.

End Containers.
